(** * The attention engine of [AttentionVisualizer.js]

    A shallow embedding of the numeric core of
    [src/components/AttentionVisualizer.js]: the tokenizer, the embedder,
    [matMul], the score and scaling stages, [softmax], the aggregation and
    [generateAttentionStory]; and, around the engine, the state of the
    guided tour, the token cards of [AttentionGraph] and the arrows of
    [AttentionFlow].

    JavaScript numbers are IEEE-754 binary64 values; they are modelled by
    Rocq's primitive [float], whose [+ - * /], [sqrt] and comparisons are the
    IEEE operations.  [Math.sin], [Math.cos] and [Math.exp] are
    "implementation-approximated" in ECMA-262 (21.3.2): the model takes them
    from a record of builtins, and states as [ecma262] the values the standard
    fixes.  Strings are sequences of UTF-16 code units. *)

From Stdlib Require Import ZArith NArith List Bool Lia.
From Stdlib Require Import Floats Uint63.
From Stdlib Require Import Ascii String.
From Stdlib Require Import Sorting.Sorted Sorting.Permutation.
From Stdlib Require Import Reals Lra.
Import ListNotations.

Set Warnings "-inexact-float,-register-all".
Local Open Scope bool_scope.
Local Open Scope list_scope.

(* ================================================================== *)
(** * 1. Numbers: the IEEE-754 fragment of the [Math] object           *)
(* ================================================================== *)

Module JS.

Local Open Scope float_scope.

(** A [Number] made from a length, an index or a character code.  It is the
    exact value for every [n < 2^53], the range of JavaScript array lengths. *)
Definition of_Z (z : Z) : float := of_uint63 (Uint63.of_Z z).
Definition of_nat (n : nat) : float := of_Z (Z.of_nat n).

(** [2^52]: from here on every binary64 value is an integer. *)
Definition two52 : float := 4503599627370496.

(** The integer nearest to [a], for [0 <= a < 2^52] (ties to even). *)
Definition rint_abs (a : float) : float := (a + two52) - two52.

(** [Math.floor]. *)
Definition Math_floor (x : float) : float :=
  if is_nan x then x
  else if two52 <=? abs x then x
  else
    let r := if 0 <=? x then rint_abs x else - rint_abs (- x) in
    if x <? r then r - 1 else r.

(** [Math.round]: the integer nearest to [x], a tie going towards
    [+Infinity]; [-0] for [-0.5 <= x <= -0] (ECMA-262 21.3.2.28). *)
Definition Math_round (x : float) : float :=
  if is_nan x then x
  else if two52 <=? abs x then x
  else
    let f := Math_floor x in
    let r := if 0.5 <=? x - f then f + 1 else f in
    if r =? 0 then (if get_sign x then -0 else 0) else r.

(** [Math.max(a, b)] of two arguments: [NaN] when either is, and [+0] above
    [-0]. *)
Definition max2 (a b : float) : float :=
  if is_nan a then a
  else if is_nan b then b
  else if a <? b then b
  else if b <? a then a
  else if get_sign a then b else a.

(** [Math.max(...arr)]: [-Infinity] for no argument. *)
Definition Math_max (arr : list float) : float :=
  fold_left max2 arr neg_infinity.

(** [ToBoolean] of a Number: [0], [-0] and [NaN] are falsy. *)
Definition truthy_num (x : float) : bool :=
  negb (is_nan x) && negb (x =? 0).

(** A string is a sequence of UTF-16 code units. *)
Definition jsstring := list N.

(** The code units of an ASCII literal. *)
Fixpoint str (s : string) : jsstring :=
  match s with
  | EmptyString => []
  | String c s' => N_of_ascii c :: str s'
  end.

Definition jsstring_eqb (a b : jsstring) : bool :=
  if list_eq_dec N.eq_dec a b then true else false.

(** The builtins whose results the program reads but ECMA-262 leaves to the
    host: the transcendental functions, approximated by each engine, and
    [Number::toString], which the template literals of the story call. *)
Record builtins := Builtins {
  Math_sin : float -> float;
  Math_cos : float -> float;
  Math_exp : float -> float;
  Number_toString : float -> jsstring
}.

(** The values ECMA-262 fixes exactly (21.3.2.30, 21.3.2.12, 21.3.2.14). *)
Record ecma262 (B : builtins) : Prop := Ecma262 {
  sin_zero : Math_sin B 0 = 0;
  cos_zero : Math_cos B 0 = 1;
  exp_zero : Math_exp B 0 = 1;
  exp_neg_zero : Math_exp B (-0) = 1;
  exp_neg_infinity : Math_exp B neg_infinity = 0;
  exp_nan : Math_exp B nan = nan
}.

(** ** Values and abrupt completions

    The values [matMul] can be handed: [undefined], [null], Numbers and
    (nested) arrays.  The only abrupt completion of the engine is the
    [TypeError] of a property read on [undefined] or [null]. *)
Inductive value :=
| Undefined
| Null
| Num (x : float)
| Arr (elems : list value).

Inductive error := TypeError.

Inductive outcome (A : Type) :=
| Ok (a : A)
| Throw (e : error).
Arguments Ok {A} a.
Arguments Throw {A} e.

Definition bind {A C} (m : outcome A) (k : A -> outcome C) : outcome C :=
  match m with
  | Ok a => k a
  | Throw e => Throw e
  end.

(** [ToBoolean]: every array is truthy, also the empty one. *)
Definition truthy (v : value) : bool :=
  match v with
  | Undefined | Null => false
  | Num x => truthy_num x
  | Arr _ => true
  end.

Definition falsy (v : value) : bool := negb (truthy v).

(** [v.length]: a [TypeError] on [undefined] and [null], [undefined] (here
    [None]) on a Number, the number of elements of an array. *)
Definition length_of (v : value) : outcome (option nat) :=
  match v with
  | Undefined | Null => Throw TypeError
  | Num _ => Ok None
  | Arr l => Ok (Some (List.length l))
  end.

(** [ToBoolean] and [ToLength] of what [length_of] read. *)
Definition truthy_length (n : option nat) : bool :=
  match n with
  | Some (S _) => true
  | _ => false
  end.

Definition to_length (n : option nat) : nat :=
  match n with
  | Some n => n
  | None => 0
  end.

(** [v[i]]: a [TypeError] on [undefined] and [null], [undefined] on a Number
    and past the end of an array. *)
Definition index (v : value) (i : nat) : outcome value :=
  match v with
  | Undefined | Null => Throw TypeError
  | Num _ => Ok Undefined
  | Arr l => Ok (nth i l Undefined)
  end.

(** [ToNumber], as the operands of [*] undergo it.  An array is converted
    through its string: [[]] reads as the empty string and gives [0], a
    one-element array gives what its element's string gives ([-0] prints as
    ["0"], [undefined] and [null] as the empty string), and a longer array
    prints with a comma and gives [NaN]. *)
Fixpoint ToNumber (v : value) : float :=
  match v with
  | Undefined => nan
  | Null => 0
  | Num x => x
  | Arr [] => 0
  | Arr [e] =>
      match e with
      | Undefined | Null => 0
      | Num x => if x =? 0 then 0 else x
      | Arr _ => ToNumber e
      end
  | Arr (_ :: _ :: _) => nan
  end.

(** A matrix of Numbers as the value the program passes around. *)
Definition matrix := list (list float).

Definition of_row (r : list float) : value := Arr (map Num r).
Definition of_matrix (m : matrix) : value := Arr (map of_row m).

(** [for (let i = from; i < from + n; i++) body]. *)
Fixpoint for_loop {S : Type} (n from : nat) (body : nat -> S -> outcome S) (s : S)
  : outcome S :=
  match n with
  | O => Ok s
  | Datatypes.S n' => bind (body from s) (for_loop n' (Datatypes.S from) body)
  end.

(** [l[i] = x] for an index within the array (the program writes no other). *)
Fixpoint update {A : Type} (i : nat) (x : A) (l : list A) : list A :=
  match l, i with
  | [], _ => []
  | _ :: t, O => x :: t
  | h :: t, Datatypes.S i' => h :: update i' x t
  end.

(** [m[i][j]] of a matrix of Numbers, as an operand of [+]. *)
Definition get2 (m : matrix) (i j : nat) : float := nth j (nth i m []) nan.

(** [m[i][j] = x]. *)
Definition set2 (m : matrix) (i j : nat) (x : float) : matrix :=
  update i (update j x (nth i m [])) m.

End JS.

Import JS.

(* ================================================================== *)
(** * 2. The program                                                   *)
(* ================================================================== *)

(** ** 2.1 Tokens (source line 21)

    [inputText.trim().split(' ').filter(t => t.length > 0)]. *)

(** The code units [String.prototype.trim] strips: ECMA-262's WhiteSpace
    (TAB, VT, FF, ZWNBSP and the Unicode space separators) and
    LineTerminator (LF, CR, LS, PS). *)
Definition is_whitespace (c : N) : bool :=
  match c with
  | 9 | 10 | 11 | 12 | 13 | 32 | 160 | 5760 | 8232 | 8233 | 8239 | 8287
  | 12288 | 65279 => true
  | _ => (8192 <=? c) && (c <=? 8202)
  end%N.

Fixpoint trimStart (s : jsstring) : jsstring :=
  match s with
  | [] => []
  | c :: s' => if is_whitespace c then trimStart s' else s
  end.

Definition trimEnd (s : jsstring) : jsstring := rev (trimStart (rev s)).

Definition trim (s : jsstring) : jsstring := trimEnd (trimStart s).

(** The code unit of [' '], the separator of the split. *)
Definition space : N := 32.

(** [s.split(sep)] for a one-unit separator: the fragments between the
    separators, empty ones included; the empty string has one (empty)
    fragment. *)
Fixpoint split (sep : N) (s : jsstring) : list jsstring :=
  match s with
  | [] => [[]]
  | c :: s' =>
      if (c =? sep)%N then [] :: split sep s'
      else
        match split sep s' with
        | [] => [[c]]
        | f :: fs => (c :: f) :: fs
        end
  end.

Definition tokens (inputText : jsstring) : list jsstring :=
  filter (fun t => 0 <? List.length t)%nat (split space (trim inputText)).

Definition seqLen (inputText : jsstring) : nat := List.length (tokens inputText).

(** ** 2.2 Embeddings (source lines 25-34) *)

Definition dModel : nat := 4.
Definition dK : float := 2.
Definition dV : nat := 2.

(** [arr.map((x, i) => f(i, x))], the index counted from [i]. *)
Fixpoint mapi_from {A C : Type} (f : nat -> A -> C) (i : nat) (l : list A) : list C :=
  match l with
  | [] => []
  | x :: l' => f i x :: mapi_from f (S i) l'
  end.

Definition mapi {A C : Type} (f : nat -> A -> C) (l : list A) : list C :=
  mapi_from f 0 l.

(** [token.charCodeAt(0) % 10]: the UTF-16 code unit at index 0, an integer
    below [2^16], so that [%] is the integer remainder; [NaN] for the empty
    string. *)
Definition charCodeAt0_mod10 (token : jsstring) : float :=
  match token with
  | [] => nan
  | c :: _ => of_Z (Z.of_N (c mod 10))
  end.

(** [Math.round(val * 100) / 100]. *)
Definition round2 (val : float) : float := (Math_round (val * 100) / 100)%float.

Definition base (B : builtins) (i : nat) (token : jsstring) : list float :=
  [ Math_sin B (of_nat i * 0.5) * 0.8 + 0.2;
    Math_cos B (of_nat i * 0.3) * 0.6 + 0.4;
    of_nat (List.length token) * 0.1;
    charCodeAt0_mod10 token * 0.1 ]%float.

Definition embeddings_of (B : builtins) (tokens : list jsstring) : matrix :=
  if (0 <? List.length tokens)%nat
  then mapi (fun i token => map round2 (base B i token)) tokens
  else [].

Definition embeddings (B : builtins) (inputText : jsstring) : matrix :=
  embeddings_of B (tokens inputText).

(** ** 2.3 Weights (source lines 37-39) *)

Definition WQ : matrix := [[0.5; -0.3]; [0.2; 0.8]; [-0.4; 0.6]; [0.7; -0.1]]%float.
Definition WK : matrix := [[0.3; 0.9]; [-0.2; 0.4]; [0.8; -0.5]; [0.1; 0.7]]%float.
Definition WV : matrix := [[0.6; 0.2]; [0.4; -0.8]; [-0.3; 0.5]; [0.9; 0.1]]%float.

(** ** 2.4 [matMul] (source lines 42-55) *)

(** [!A || !B || !A.length || !B.length || !A[0] || !B[0]], left to right. *)
Definition matMul_guard (A B : value) : outcome bool :=
  if falsy A then Ok true
  else if falsy B then Ok true
  else
    bind (length_of A) (fun la =>
    if negb (truthy_length la) then Ok true
    else
      bind (length_of B) (fun lb =>
      if negb (truthy_length lb) then Ok true
      else
        bind (index A 0) (fun a0 =>
        if falsy a0 then Ok true
        else bind (index B 0) (fun b0 => Ok (falsy b0))))).

(** [result[i][j] += A[i][k] * B[k][j]]. *)
Definition matMul_step (A B : value) (i j k : nat) (result : matrix) : outcome matrix :=
  bind (index A i) (fun Ai =>
  bind (index Ai k) (fun Aik =>
  bind (index B k) (fun Bk =>
  bind (index Bk j) (fun Bkj =>
  Ok (set2 result i j (get2 result i j + ToNumber Aik * ToNumber Bkj)%float))))).

Definition matMul (A B : value) : outcome matrix :=
  bind (matMul_guard A B) (fun stop =>
  if stop then Ok []
  else
    bind (length_of A) (fun A_length =>
    bind (index B 0) (fun B0 =>
    bind (length_of B0) (fun B0_length =>
    bind (length_of B) (fun B_length =>
    let result :=
      repeat (repeat 0%float (to_length B0_length)) (to_length A_length) in
    bind
      (for_loop (to_length A_length) 0 (fun i =>
         for_loop (to_length B0_length) 0 (fun j =>
           for_loop (to_length B_length) 0 (matMul_step A B i j))) result)
      (fun result => Ok (map (fun row => map round2 row) result))))))).

(** ** 2.5 Projections, scores and scaling (source lines 57-64) *)

Definition Q (B : builtins) (inputText : jsstring) : outcome matrix :=
  let embeddings := embeddings B inputText in
  if (0 <? List.length embeddings)%nat
  then matMul (of_matrix embeddings) (of_matrix WQ) else Ok [].

Definition K (B : builtins) (inputText : jsstring) : outcome matrix :=
  let embeddings := embeddings B inputText in
  if (0 <? List.length embeddings)%nat
  then matMul (of_matrix embeddings) (of_matrix WK) else Ok [].

Definition V (B : builtins) (inputText : jsstring) : outcome matrix :=
  let embeddings := embeddings B inputText in
  if (0 <? List.length embeddings)%nat
  then matMul (of_matrix embeddings) (of_matrix WV) else Ok [].

(** [row[i]] of a row of Numbers: [undefined] past its end. *)
Definition row_index (row : list float) (i : nat) : value :=
  match nth_error row i with
  | Some x => Num x
  | None => Undefined
  end.

(** [K[0].map((_, i) => K.map(row => row[i]))]. *)
Definition transpose (K : matrix) : value :=
  Arr (map (fun i => Arr (map (fun row => row_index row i) K))
           (seq 0 (List.length (nth 0 K [])))).

Definition scores (B : builtins) (inputText : jsstring) : outcome matrix :=
  bind (Q B inputText) (fun Q =>
  bind (K B inputText) (fun K =>
  if (0 <? List.length Q)%nat && (0 <? List.length K)%nat
     && truthy (nth 0 (map of_row K) Undefined)
  then matMul (of_matrix Q) (transpose K) else Ok [])).

Definition scaledScores (B : builtins) (inputText : jsstring) : outcome matrix :=
  bind (scores B inputText) (fun scores =>
  Ok (if (0 <? List.length scores)%nat
      then map (fun row =>
             map (fun val => Math_round (val / PrimFloat.sqrt dK * 100) / 100)%float row)
             scores
      else [])).

(** ** 2.6 [softmax] (source lines 66-72)

    The function is written over the arithmetic it uses, so that it can be
    read in the engine's binary64 arithmetic ([ieee]) and, for the bounds of
    real analysis that the normalisation is about, in exact arithmetic
    ([exact], section 3). *)
Record arith (num : Type) := Arith {
  a_lit : Z -> num;
  a_add : num -> num -> num;
  a_sub : num -> num -> num;
  a_mul : num -> num -> num;
  a_div : num -> num -> num;
  a_exp : num -> num;
  a_round : num -> num;
  a_max : list num -> num
}.
Arguments a_lit {num} _ _.
Arguments a_add {num} _ _ _.
Arguments a_sub {num} _ _ _.
Arguments a_mul {num} _ _ _.
Arguments a_div {num} _ _ _.
Arguments a_exp {num} _ _.
Arguments a_round {num} _ _.
Arguments a_max {num} _ _.

Definition softmax {num : Type} (N : arith num) (arr : list num) : list num :=
  if (List.length arr =? 0)%nat then []
  else
    let maxVal := a_max N arr in
    let exp := map (fun x => a_exp N (a_sub N x maxVal)) arr in
    let sum := fold_left (fun a b => a_add N a b) exp (a_lit N 0) in
    map (fun x =>
           a_div N (a_round N (a_mul N (a_div N x sum) (a_lit N 1000)))
                   (a_lit N 1000)) exp.

(** Binary64 arithmetic with the host's [Math.exp]. *)
Definition ieee (B : builtins) : arith float :=
  {| a_lit := of_Z;
     a_add := PrimFloat.add;
     a_sub := PrimFloat.sub;
     a_mul := PrimFloat.mul;
     a_div := PrimFloat.div;
     a_exp := Math_exp B;
     a_round := Math_round;
     a_max := Math_max |}.

(** ** 2.7 Attention weights and output (source lines 74-75) *)

Definition attentionWeights (B : builtins) (inputText : jsstring) : outcome matrix :=
  bind (scaledScores B inputText) (fun scaledScores =>
  Ok (if (0 <? List.length scaledScores)%nat
      then map (fun row => softmax (ieee B) row) scaledScores
      else [])).

Definition output (B : builtins) (inputText : jsstring) : outcome matrix :=
  bind (attentionWeights B inputText) (fun attentionWeights =>
  bind (V B inputText) (fun V =>
  if (0 <? List.length attentionWeights)%nat
  then matMul (of_matrix attentionWeights) (of_matrix V) else Ok [])).

(** ** 2.8 [generateAttentionStory] (source lines 136-161)

    The function is called with a string, the token array, one row of
    weights and an index; the two array arguments are arrays (truthy), so
    that of the first test only the two length comparisons remain. *)

Record item := Item {
  weight : float;
  idx : nat;
  token : jsstring
}.

Definition unknown : jsstring := str "unknown".

(** [weight || 0]. *)
Definition weight_or_zero (w : float) : float :=
  if truthy_num w then w else 0%float.

(** [allTokens[idx] || 'unknown']: the empty string is falsy too. *)
Definition token_or_unknown (allTokens : list jsstring) (idx : nat) : jsstring :=
  match nth_error allTokens idx with
  | Some t => if (0 <? List.length t)%nat then t else unknown
  | None => unknown
  end.

(** [Array.prototype.sort(comparefn)], a stable sort (ECMA-262 23.1.3.30):
    [x] is placed after [y] exactly when [comparefn(x, y) > 0], a [NaN]
    result counting as [0], and elements that compare equal keep their
    order. *)
Fixpoint sort_insert {A : Type} (comparefn : A -> A -> float) (x : A) (l : list A)
  : list A :=
  match l with
  | [] => [x]
  | y :: l' =>
      if (0 <? comparefn x y)%float then y :: sort_insert comparefn x l'
      else x :: l
  end.

Definition Array_sort {A : Type} (comparefn : A -> A -> float) (l : list A) : list A :=
  fold_right (sort_insert comparefn) [] l.

(** [attentionRow.map(...).filter(item => item.token !== 'unknown')]. *)
Definition entries (allTokens : list jsstring) (attentionRow : list float) : list item :=
  filter (fun item => negb (jsstring_eqb (token item) unknown))
    (mapi (fun idx weight =>
             {| weight := weight_or_zero weight;
                idx := idx;
                token := token_or_unknown allTokens idx |})
          attentionRow).

Definition sortedAttention (allTokens : list jsstring) (attentionRow : list float)
  : list item :=
  Array_sort (fun a b => weight b - weight a)%float (entries allTokens attentionRow).

Definition quote : jsstring := [34%N].

(** [`"${word}" is still calculating its attention patterns...`]. *)
Definition placeholder (word : jsstring) : jsstring :=
  quote ++ word ++ quote ++ str " is still calculating its attention patterns...".

(** [`${Math.round(w * 100)}`]. *)
Definition percent (B : builtins) (w : float) : jsstring :=
  Number_toString B (Math_round (w * 100)%float).

Definition focused_on_itself (B : builtins) (word : jsstring) (t0 t1 : item) : jsstring :=
  quote ++ word ++ quote ++ str " is mostly focused on itself (" ++ percent B (weight t0)
  ++ str "%), but also pays some attention to " ++ quote ++ token t1 ++ quote
  ++ str " (" ++ percent B (weight t1) ++ str "%).".

Definition most_interested_in (B : builtins) (word : jsstring) (t0 t1 : item) : jsstring :=
  quote ++ word ++ quote ++ str " is most interested in " ++ quote ++ token t0 ++ quote
  ++ str " (" ++ percent B (weight t0) ++ str "% of its attention), followed by "
  ++ quote ++ token t1 ++ quote ++ str " (" ++ percent B (weight t1) ++ str "%).".

(** [arr[i]] of an array of items, read within its bounds. *)
Definition item_at (arr : list item) (i : nat) : item :=
  nth i arr {| weight := nan; idx := 0; token := unknown |}.

Definition generateAttentionStory (B : builtins) (word : jsstring)
  (allTokens : list jsstring) (attentionRow : list float) (wordIndex : nat) : jsstring :=
  if (List.length attentionRow =? 0)%nat || (List.length allTokens =? 0)%nat
  then placeholder word
  else
    let sortedAttention := sortedAttention allTokens attentionRow in
    if (List.length sortedAttention <? 2)%nat then placeholder word
    else
      let topAttention := firstn 3 sortedAttention in
      if (idx (item_at topAttention 0) =? wordIndex)%nat
      then focused_on_itself B word (item_at topAttention 0) (item_at topAttention 1)
      else most_interested_in B word (item_at topAttention 0) (item_at topAttention 1).

(** ** 2.9 A reference host

    One concrete [builtins], for closed examples: [Math.sin], [Math.cos] and
    [Math.exp] by argument reduction and Taylor polynomials in binary64
    arithmetic (within a few units in the last place of the mathematical
    value for the arguments the engine produces), and [Number::toString] on
    the integers, which is what the story prints. *)
Module Reference.

Local Open Scope float_scope.

(** The integer a float with an integral value stands for. *)
Definition float_to_Z (f : float) : Z :=
  match Prim2SF f with
  | S754_finite s m e =>
      let v := Z.shiftl (Zpos m) e in if s then Z.opp v else v
  | _ => 0%Z
  end.

(** Round to the nearest integer, for [|t| < 2^51]. *)
Definition rint (t : float) : float :=
  (t + 6755399441055744) - 6755399441055744.

Fixpoint horner (cs : list float) (r : float) : float :=
  match cs with
  | [] => 0
  | c :: cs' => c + r * horner cs' r
  end.

(** [1/n!] for [n = 0 .. 15]. *)
Definition exp_coeffs : list float :=
  [1; 1; 0.5; 0.16666666666666666; 0.041666666666666664; 0.008333333333333333;
   0.001388888888888889; 0.0001984126984126984; 2.48015873015873e-05;
   2.7557319223985893e-06; 2.755731922398589e-07; 2.505210838544172e-08;
   2.08767569878681e-09; 1.6059043836821613e-10; 1.1470745597729725e-11;
   7.647163731819816e-13].

(** [exp x = 2^k * exp r] with [x = k ln 2 + r]. *)
Definition ref_exp (x : float) : float :=
  if is_nan x then nan
  else if 709.782712893384 <? x then infinity
  else if x <? -745.1332191019412 then 0
  else
    let k := rint (x * 1.4426950408889634) in
    let r := (x - k * 0.6931471803691238) - k * 1.9082149292705877e-10 in
    Z.ldexp (horner exp_coeffs r) (float_to_Z k).

Definition sin_coeffs : list float :=
  [1; -0.16666666666666666; 0.008333333333333333; -0.0001984126984126984;
   2.7557319223985893e-06; -2.505210838544172e-08; 1.6059043836821613e-10;
   -7.647163731819816e-13; 2.8114572543455206e-15; -8.22063524662433e-18].

Definition cos_coeffs : list float :=
  [1; -0.5; 0.041666666666666664; -0.001388888888888889; 2.48015873015873e-05;
   -2.755731922398589e-07; 2.08767569878681e-09; -1.1470745597729725e-11;
   4.779477332387385e-14; -1.5619206968586225e-16; 4.110317623312165e-19].

Definition kernel_sin (r : float) : float := r * horner sin_coeffs (r * r).
Definition kernel_cos (r : float) : float := horner cos_coeffs (r * r).

(** [x = k (pi/2) + r], with [pi/2] in three pieces; the quadrant is
    [k mod 4]. *)
Definition reduce (x : float) : float * Z :=
  let k := rint (x * 0.6366197723675814) in
  let r := ((x - k * 1.5707963267341256) - k * 6.077100506303966e-11)
           - k * 2.0222662487959506e-21 in
  (r, (float_to_Z k mod 4)%Z).

Definition ref_sin (x : float) : float :=
  if is_nan x || is_infinity x then nan
  else if x =? 0 then x
  else
    let '(r, q) := reduce x in
    match q with
    | 0%Z => kernel_sin r
    | 1%Z => kernel_cos r
    | 2%Z => - kernel_sin r
    | _ => - kernel_cos r
    end.

Definition ref_cos (x : float) : float :=
  if is_nan x || is_infinity x then nan
  else
    let '(r, q) := reduce x in
    match q with
    | 0%Z => kernel_cos r
    | 1%Z => - kernel_sin r
    | 2%Z => - kernel_cos r
    | _ => kernel_sin r
    end.

(** The decimal digits of [n], most significant first. *)
Fixpoint digits (fuel : nat) (n : N) (acc : jsstring) : jsstring :=
  match fuel with
  | O => acc
  | S fuel' =>
      let acc' := (48 + n mod 10)%N :: acc in
      if (n / 10 =? 0)%N then acc' else digits fuel' (n / 10)%N acc'
  end.

(** [Number::toString] on [NaN], the infinities and the integers (exact
    below [10^21], where JavaScript switches to the exponent notation). *)
Definition ref_toString (x : float) : jsstring :=
  if is_nan x then str "NaN"
  else if x =? infinity then str "Infinity"
  else if x =? neg_infinity then str "-Infinity"
  else
    let z := float_to_Z x in
    let d := digits 400 (Z.abs_N z) [] in
    if (z <? 0)%Z then 45%N :: d else d.

Definition host : builtins :=
  {| Math_sin := ref_sin;
     Math_cos := ref_cos;
     Math_exp := ref_exp;
     Number_toString := ref_toString |}.

End Reference.

(** ** 2.10 The rest of the component

    What the component does around the engine: the state of the guided
    tour and of the token selection (source lines 5-12, the timers of lines
    116-134, the handlers of lines 199-213 and 563-681), the story and the
    opacity of the token cards of [AttentionGraph] (lines 164-248) and the
    arrows of [AttentionFlow] (lines 251-333). *)
Module View.

(** [Math.min(a, b)]: [NaN] when either is, and [-0] below [+0]. *)
Definition min2 (a b : float) : float :=
  if is_nan a then a
  else if is_nan b then b
  else if (a <? b)%float then a
  else if (b <? a)%float then b
  else if get_sign a then a else b.

(** [Math.min(...arr)]: [+Infinity] for no argument. *)
Definition Math_min (arr : list float) : float := fold_left min2 arr infinity.

Definition Math_PI : float := 3.141592653589793.

(** *** The state

    The counters are Numbers that start at [0] and change by the two
    updaters below and by the navigation buttons only: they are natural
    numbers.  A token index is [null] or a number. *)

Inductive component := Embeddings | Qkv | Scores | Attention | Output.

(** The [component] fields of [steps], in order. *)
Definition steps : list component := [Embeddings; Qkv; Scores; Attention; Output].

(** [current => current < steps.length - 1 ? current + 1 : 0]. *)
Definition next_step (current : nat) : nat :=
  if (current <? List.length steps - 1)%nat then current + 1 else 0.

(** [phase => (phase + 1) % 4]. *)
Definition next_phase (phase : nat) : nat := (phase + 1) mod 4.

Record ui := Ui {
  inputText : jsstring;
  currentStep : nat;
  isPlaying : bool;
  hoveredToken : option nat;
  selectedToken : option nat;
  showMath : bool;
  animationPhase : nat
}.

(** The initial values of the [useState] calls. *)
Definition initial : ui :=
  {| inputText := str "The cat sat on the mat"; currentStep := 0; isPlaying := false;
     hoveredToken := None; selectedToken := None; showMath := false;
     animationPhase := 0 |}.

Inductive event :=
| PhaseTick                      (* the 1000 ms interval *)
| StepTick                       (* the 4000 ms interval *)
| MouseEnter (i : nat)           (* onMouseEnter of token [i] *)
| MouseLeave                     (* onMouseLeave of a token *)
| ClickToken (i : nat)           (* onClick of token [i] *)
| SetInputText (text : jsstring) (* the text field and the example buttons *)
| TogglePlay
| ToggleMath
| ClickStep (index : nat).       (* the navigation button of step [index] *)

(** [selectedToken === i]. *)
Definition is_token (a : option nat) (i : nat) : bool :=
  match a with
  | Some j => (j =? i)%nat
  | None => false
  end.

(** The state setters each handler calls. *)
Definition handle (e : event) (st : ui) : ui :=
  match e with
  | PhaseTick =>
      {| inputText := inputText st; currentStep := currentStep st;
         isPlaying := isPlaying st; hoveredToken := hoveredToken st;
         selectedToken := selectedToken st; showMath := showMath st;
         animationPhase := next_phase (animationPhase st) |}
  | StepTick =>
      {| inputText := inputText st; currentStep := next_step (currentStep st);
         isPlaying := isPlaying st; hoveredToken := hoveredToken st;
         selectedToken := selectedToken st; showMath := showMath st;
         animationPhase := animationPhase st |}
  | MouseEnter i =>
      {| inputText := inputText st; currentStep := currentStep st;
         isPlaying := isPlaying st; hoveredToken := Some i;
         selectedToken := selectedToken st; showMath := showMath st;
         animationPhase := animationPhase st |}
  | MouseLeave =>
      {| inputText := inputText st; currentStep := currentStep st;
         isPlaying := isPlaying st; hoveredToken := None;
         selectedToken := selectedToken st; showMath := showMath st;
         animationPhase := animationPhase st |}
  | ClickToken i =>
      {| inputText := inputText st; currentStep := currentStep st;
         isPlaying := isPlaying st; hoveredToken := None;
         selectedToken := if is_token (selectedToken st) i then None else Some i;
         showMath := showMath st; animationPhase := animationPhase st |}
  | SetInputText text =>
      {| inputText := text; currentStep := currentStep st;
         isPlaying := isPlaying st; hoveredToken := hoveredToken st;
         selectedToken := selectedToken st; showMath := showMath st;
         animationPhase := animationPhase st |}
  | TogglePlay =>
      {| inputText := inputText st; currentStep := currentStep st;
         isPlaying := negb (isPlaying st); hoveredToken := hoveredToken st;
         selectedToken := selectedToken st; showMath := showMath st;
         animationPhase := animationPhase st |}
  | ToggleMath =>
      {| inputText := inputText st; currentStep := currentStep st;
         isPlaying := isPlaying st; hoveredToken := hoveredToken st;
         selectedToken := selectedToken st; showMath := negb (showMath st);
         animationPhase := animationPhase st |}
  | ClickStep index =>
      {| inputText := inputText st; currentStep := index;
         isPlaying := isPlaying st; hoveredToken := hoveredToken st;
         selectedToken := selectedToken st; showMath := showMath st;
         animationPhase := animationPhase st |}
  end.

(** The events the page can produce in a state: the intervals exist while
    the tour plays; the buttons are rendered when there is a token, one
    navigation button per step; the token cards of [AttentionGraph] are
    rendered in the step whose component is [Attention]. *)
Definition enabled (st : ui) (e : event) : bool :=
  match e with
  | PhaseTick | StepTick => isPlaying st
  | MouseEnter i | ClickToken i =>
      match nth_error steps (currentStep st) with
      | Some Attention => (i <? seqLen (inputText st))%nat
      | _ => false
      end
  | MouseLeave =>
      match nth_error steps (currentStep st) with
      | Some Attention => (0 <? seqLen (inputText st))%nat
      | _ => false
      end
  | SetInputText _ => true
  | TogglePlay | ToggleMath => (0 <? seqLen (inputText st))%nat
  | ClickStep index =>
      (0 <? seqLen (inputText st))%nat && (index <? List.length steps)%nat
  end.

Inductive reachable : ui -> Prop :=
| reach_initial : reachable initial
| reach_handle st e : reachable st -> enabled st e = true -> reachable (handle e st).

(** *** [AttentionGraph] *)

(** [`${tokenList[displayToken]}`]: a missing token prints as
    ["undefined"]. *)
Definition word_at (tokenList : list jsstring) (displayToken : nat) : jsstring :=
  match nth_error tokenList displayToken with
  | Some t => t
  | None => str "undefined"
  end.

(** The story shown for the displayed token (source line 242):
    [generateAttentionStory(tokenList[displayToken], tokenList,
    weights[displayToken] || [], displayToken)]. *)
Definition AttentionGraph_story (B : builtins) (weights : matrix)
  (tokenList : list jsstring) (displayToken : nat) : jsstring :=
  generateAttentionStory B (word_at tokenList displayToken) tokenList
    (nth displayToken weights []) displayToken.

(** [displayToken !== null ? (weights[displayToken] &&
    weights[displayToken][i] ? weights[displayToken][i] : 0) : 0]: a missing
    row and a missing or falsy weight give [0]. *)
Definition attention_of (weights : matrix) (displayToken : option nat) (i : nat) : float :=
  match displayToken with
  | Some d =>
      match nth_error weights d with
      | Some row =>
          match nth_error row i with
          | Some w => if truthy_num w then w else 0%float
          | None => 0%float
          end
      | None => 0%float
      end
  | None => 0%float
  end.

(** [displayToken !== null ? Math.max(0.4, Math.min(1, attention + 0.3)) : 1]. *)
Definition baseOpacity (weights : matrix) (displayToken : option nat) (i : nat) : float :=
  match displayToken with
  | Some _ => Math_max [0.4; Math_min [1; attention_of weights displayToken i + 0.3]]%float
  | None => 1%float
  end.

(** *** [AttentionFlow]

    The effect draws on a canvas of 600 by 150; what it draws is kept as
    the list of the arrows, each with the numbers computed for it. *)

Definition canvas_width : float := 600.
Definition canvas_height : float := 150.

Record point := Point { x : float; y : float }.

Record arrow := Arrow {
  target : nat;            (* targetIdx *)
  alpha : float;           (* Math.min(1, weight * 2), of strokeStyle *)
  lineWidth : float;       (* Math.max(2, weight * 8) *)
  from : point;            (* moveTo: start *)
  control : point;         (* quadraticCurveTo: midX, midY *)
  to : point;              (* quadraticCurveTo: end *)
  particle : point;        (* arc: particleX, particleY *)
  radius : float;          (* arc: Math.max(2, weight * 6) *)
  label : float            (* fillText: Math.round(weight * 100) *)
}.

(** [tokenList.map((_, i) => ({x: (width / (tokenList.length + 1)) * (i + 1),
    y: height / 2}))]. *)
Definition tokenPositions (tokenList : list jsstring) : list point :=
  mapi (fun i _ =>
          {| x := canvas_width / (of_nat (List.length tokenList) + 1) * (of_nat i + 1);
             y := canvas_height / 2 |}%float)
       tokenList.

(** The body of the [forEach] when its test holds; [start.x] and [end.x]
    throw on a token without position. *)
Definition draw (B : builtins) (positions : list point) (selectedToken : nat)
  (animationPhase : nat) (weight : float) (targetIdx : nat) : outcome arrow :=
  match nth_error positions selectedToken, nth_error positions targetIdx with
  | Some start, Some end_ =>
      let phase := (of_nat animationPhase * Math_PI / 2)%float in
      let midX := ((x start + x end_) / 2)%float in
      let midY := ((y start + y end_) / 2 - 30 * Math_sin B (phase + weight))%float in
      let t := ((Math_sin B (phase + weight) + 1) / 2)%float in
      let particleX := (x start + (x end_ - x start) * t)%float in
      let particleY := (y start + (midY - y start) * 2 * t * (1 - t))%float in
      Ok {| target := targetIdx;
            alpha := Math_min [1; weight * 2]%float;
            lineWidth := Math_max [2; weight * 8]%float;
            from := start;
            control := {| x := midX; y := midY |};
            to := end_;
            particle := {| x := particleX; y := particleY |};
            radius := Math_max [2; weight * 6]%float;
            label := Math_round (weight * 100) |}
  | _, _ => Throw TypeError
  end.

(** [weight > 0.05 && targetIdx !== selectedToken &&
    targetIdx < tokenPositions.length]. *)
Definition drawn (positions : list point) (selectedToken : nat)
  (weight : float) (targetIdx : nat) : bool :=
  (0.05 <? weight)%float && negb (targetIdx =? selectedToken)%nat
  && (targetIdx <? List.length positions)%nat.

(** [selectedWeights.forEach((weight, targetIdx) => ...)], from index
    [targetIdx] on. *)
Fixpoint forEach_weight (B : builtins) (positions : list point) (selectedToken : nat)
  (animationPhase : nat) (targetIdx : nat) (selectedWeights : list float)
  : outcome (list arrow) :=
  match selectedWeights with
  | [] => Ok []
  | weight :: rest =>
      if drawn positions selectedToken weight targetIdx then
        bind (draw B positions selectedToken animationPhase weight targetIdx) (fun a =>
        bind (forEach_weight B positions selectedToken animationPhase (S targetIdx) rest)
             (fun arrows => Ok (a :: arrows)))
      else forEach_weight B positions selectedToken animationPhase (S targetIdx) rest
  end.

(** The effect of [AttentionFlow], the canvas being mounted: nothing is
    drawn without weights, without a selection, or for a selection that has
    no row of weights. *)
Definition AttentionFlow (B : builtins) (weights : matrix) (tokenList : list jsstring)
  (selectedToken : option nat) (animationPhase : nat) : outcome (list arrow) :=
  match selectedToken with
  | None => Ok []
  | Some selected =>
      if (List.length weights =? 0)%nat then Ok []
      else
        match nth_error weights selected with
        | Some selectedWeights =>
            forEach_weight B (tokenPositions tokenList) selected animationPhase 0
              selectedWeights
        | None => Ok []
        end
  end.

End View.

(* ================================================================== *)
(** * 3. Readings of the specification, and what the proofs speak of  *)
(* ================================================================== *)

(** ** 3.1 The tokenizer as the specification words it

    "trims and splits on whitespace, discards empty fragments": every
    whitespace code unit separates. *)
Fixpoint split_when (sep : N -> bool) (s : jsstring) : list jsstring :=
  match s with
  | [] => [[]]
  | c :: s' =>
      if sep c then [] :: split_when sep s'
      else
        match split_when sep s' with
        | [] => [[c]]
        | f :: fs => (c :: f) :: fs
        end
  end.

Definition tokens_spec (inputText : jsstring) : list jsstring :=
  filter (fun t => 0 <? List.length t)%nat (split_when is_whitespace (trim inputText)).

(** [frags.join(sep)]. *)
Fixpoint join (sep : N) (frags : list jsstring) : jsstring :=
  match frags with
  | [] => []
  | [f] => f
  | f :: fs => f ++ sep :: join sep fs
  end.

(** What follows the first fragment in [join sep (f :: fs)]. *)
Definition join_tail (sep : N) (fs : list jsstring) : jsstring :=
  match fs with
  | [] => []
  | _ => sep :: join sep fs
  end.

(** ** 3.2 The embedder as the specification words it

    "codepoint(token[0])" and "round-half-away-from-zero". *)

(** The code point a string starts with: a high surrogate followed by a low
    one is a single character beyond the Basic Multilingual Plane. *)
Definition codePointAt0 (token : jsstring) : option N :=
  match token with
  | [] => None
  | hi :: rest =>
      if (55296 <=? hi)%N && (hi <=? 56319)%N then
        match rest with
        | lo :: _ =>
            if (56320 <=? lo)%N && (lo <=? 57343)%N
            then Some (65536 + (hi - 55296) * 1024 + (lo - 56320))%N
            else Some hi
        | [] => Some hi
        end
      else Some hi
  end.

(** Rounding to the hundredths, a tie going away from zero. *)
Definition round2_half_away (val : float) : float :=
  let t := (val * 100)%float in
  ((if t <? 0 then - Math_round (- t) else Math_round t) / 100)%float.

Definition base_spec (B : builtins) (i : nat) (token : jsstring) : list float :=
  [ Math_sin B (of_nat i * 0.5) * 0.8 + 0.2;
    Math_cos B (of_nat i * 0.3) * 0.6 + 0.4;
    of_nat (List.length token) * 0.1;
    match codePointAt0 token with
    | Some c => of_Z (Z.of_N (c mod 10))
    | None => nan
    end * 0.1 ]%float.

Definition embeddings_spec (B : builtins) (tokens : list jsstring) : matrix :=
  mapi (fun i token => map round2_half_away (base_spec B i token)) tokens.

(** U+1F600 as the UTF-16 string it is: the pair D83D DE00. *)
Definition grinning_face : jsstring := [55357; 56832]%N.

Definition the_cat : jsstring := str "The cat sat on the mat".

Definition eight_cats : jsstring := str "cat cat cat cat cat cat cat cat".

(** ** 3.3 [matMul], cell by cell *)

(** A row that can be indexed: anything but [undefined] and [null]. *)
Definition present (v : value) : bool :=
  match v with
  | Undefined | Null => false
  | _ => true
  end.

Definition rows_present (v : value) : bool :=
  match v with
  | Arr l => forallb present l
  | _ => true
  end.

(** [v[i]] where it cannot throw. *)
Definition elem (v : value) (i : nat) : value :=
  match v with
  | Arr l => nth i l Undefined
  | _ => Undefined
  end.

(** [ToLength(v.length)] where it cannot throw. *)
Definition size (v : value) : nat :=
  match v with
  | Arr l => List.length l
  | _ => 0
  end.

(** The operands on which the guard of [matMul] returns [[]]: one of them is
    falsy or has no element, or its first row is falsy. *)
Definition degenerate (A B : value) : bool :=
  falsy A || falsy B || (size A =? 0)%nat || (size B =? 0)%nat
  || falsy (elem A 0) || falsy (elem B 0).

Definition dot_step (A B : value) (i j : nat) (acc : float) (k : nat) : float :=
  (acc + ToNumber (elem (elem A i) k) * ToNumber (elem (elem B k) j))%float.

(** The sum [result[i][j]] has accumulated when the loops are over. *)
Definition cell (A B : value) (i j : nat) : float :=
  fold_left (dot_step A B i j) (seq 0 (size B)) 0%float.

Definition shape (rows cols : nat) (m : matrix) : Prop :=
  List.length m = rows /\ Forall (fun r => List.length r = cols) m.

(** The bodies of the loops over [j] and over [i]. *)
Definition j_body (A B : value) (i : nat) : nat -> matrix -> outcome matrix :=
  fun j => for_loop (size B) 0 (matMul_step A B i j).

Definition i_body (A B : value) (cols : nat) : nat -> matrix -> outcome matrix :=
  fun i => for_loop cols 0 (j_body A B i).

(** The same sum for matrices of Numbers: a read past the end of a row is
    [undefined], hence [NaN]. *)
Definition dot (A B : matrix) (i j : nat) : float :=
  fold_left (fun acc k => acc + get2 A i k * get2 B k j)%float
            (seq 0 (List.length B)) 0%float.

(** [A x B], each cell rounded, as [matMul] returns it on matrices of
    Numbers. *)
Definition product (A B : matrix) : matrix :=
  if (List.length A =? 0)%nat || (List.length B =? 0)%nat then []
  else
    map (fun i => map (fun j => round2 (dot A B i j)) (seq 0 (List.length (nth 0 B []))))
        (seq 0 (List.length A)).

(** Row [i] of the queries against row [j] of the keys. *)
Definition dot_rows (q k : matrix) (i j : nat) : float :=
  fold_left (fun acc t => acc + get2 q i t * get2 k j t)%float
            (seq 0 (List.length (nth 0 k []))) 0%float.

(** [Math.round(val / Math.sqrt(dK) * 100) / 100]. *)
Definition scale (val : float) : float :=
  (Math_round (val / PrimFloat.sqrt dK * 100) / 100)%float.

(** ** 3.4 [softmax] in exact arithmetic, and what a row is tested for *)

Module Exact.

Local Open Scope R_scope.

(** [Math.round] in exact arithmetic: the floor of [x + 1/2]. *)
Definition round (x : R) : R := IZR (Int_part (x + / 2)).

(** [Math.max(...arr)] of a non-empty list ([softmax] asks for no other; the
    reals have no [-Infinity] for the empty one). *)
Definition max_of (arr : list R) : R :=
  match arr with
  | [] => 0
  | x :: arr' => fold_left Rmax arr' x
  end.

Definition arithmetic : arith R :=
  {| a_lit := IZR;
     a_add := Rplus;
     a_sub := Rminus;
     a_mul := Rmult;
     a_div := Rdiv;
     a_exp := Rtrigo_def.exp;
     a_round := round;
     a_max := max_of |}.

Definition sum (l : list R) : R := fold_right Rplus 0 l.

End Exact.

(** The differences [x - maxVal] that [softmax] exponentiates. *)
Definition centred (arr : list float) : list float :=
  map (fun x => x - Math_max arr)%float arr.

(** [arr.map(v => v + c)]. *)
Definition shift (c : float) (arr : list float) : list float :=
  map (fun v => v + c)%float arr.

(** [row.reduce((a, b) => a + b, 0)], and the test "sums to 1 within the
    tolerance". *)
Definition row_sum (row : list float) : float := fold_left PrimFloat.add row 0%float.

Definition sums_to_one (tolerance : float) (row : list float) : bool :=
  (abs (row_sum row - 1) <=? tolerance)%float.

(** ** 3.5 The ranking of the story *)

(** An index of the row is valid when the token array has a token there that
    is neither empty nor the string ['unknown'], the mark of a missing
    token. *)
Definition valid_index (allTokens : list jsstring) (i : nat) : bool :=
  match nth_error allTokens i with
  | Some t => (0 <? List.length t)%nat && negb (jsstring_eqb t unknown)
  | None => false
  end.

Definition valid_indices (allTokens : list jsstring) (attentionRow : list float) : list nat :=
  filter (valid_index allTokens) (seq 0 (List.length attentionRow)).

(** The entry of a valid index. *)
Definition entry_at (allTokens : list jsstring) (attentionRow : list float) (i : nat) : item :=
  {| weight := weight_or_zero (nth i attentionRow nan);
     idx := i;
     token := nth i allTokens [] |}.

(** Descending weight, a tie going to the lower index. *)
Definition ranks_before (a b : item) : Prop :=
  (weight b <? weight a)%float = true
  \/ ((weight a =? weight b)%float = true /\ idx a < idx b).

(** [(a, b) => b.weight - a.weight]. *)
Definition by_weight (a b : item) : float := (weight b - weight a)%float.

(** ** 3.6 The order of binary64 values, as integers *)

(** A bound above every finite binary64 value, counted in units of
    [2^emin]. *)
Definition huge : Z := (2 ^ 2100)%Z.

(** The value of a float in units of [2^emin], the infinities at [huge]: an
    integer that orders the floats as [<] does. *)
Definition key (x : spec_float) : Z :=
  match x with
  | S754_zero _ | S754_nan => 0%Z
  | S754_infinity s => cond_Zopp s huge
  | S754_finite s m e => cond_Zopp s (Zpos m * 2 ^ (e - emin))%Z
  end.

Definition fkey (x : float) : Z := key (Prim2SF x).

Definition is_positive (x : spec_float) : bool := SFltb (S754_zero false) x.

Definition wkey (a : item) : Z := fkey (weight a).

Definition ranks_before_key (a b : item) : Prop :=
  (wkey b < wkey a)%Z \/ (wkey a = wkey b /\ idx a < idx b).

Definition good_item (a : item) : Prop := is_nan (weight a) = false.

(** ** 3.7 Cells, features and targets *)

(** The sum [matMul] accumulates for a cell when [B] has the four rows of a
    weight matrix. *)
Definition dot4 (A B : matrix) (i j : nat) : float :=
  (0 + get2 A i 0 * get2 B 0 j + get2 A i 1 * get2 B 1 j
     + get2 A i 2 * get2 B 2 j + get2 A i 3 * get2 B 3 j)%float.

(** What the embedder reads of a token: its length, and the remainder of
    its first code unit. *)
Definition same_features (t u : jsstring) : Prop :=
  List.length t = List.length u /\ (hd 0 t mod 10 = hd 0 u mod 10)%N.

(** The ten values of [k * 0.1] rounded to the hundredths, [k = 0 .. 9]. *)
Definition tenths : list float := [0; 0.1; 0.2; 0.3; 0.4; 0.5; 0.6; 0.7; 0.8; 0.9]%float.

(** The tokens other than the word ['unknown']. *)
Definition known (tokenList : list jsstring) : list jsstring :=
  filter (fun t => negb (jsstring_eqb t unknown)) tokenList.

(** The tokens [AttentionFlow] is to draw an arrow to: those with a weight
    above [0.05] in the row, the selected one apart. *)
Definition targets (row : list float) (tokenList : list jsstring) (selected : nat)
  : list nat :=
  filter (fun j => (0.05 <? nth j row nan)%float && negb (j =? selected)%nat
                   && (j <? List.length tokenList)%nat)
         (seq 0 (List.length row)).

(* ================================================================== *)
(** * 4. Lists                                                         *)
(* ================================================================== *)

Ltac nat_cases :=
  repeat match goal with
  | |- context [(?a =? ?b)%nat] => destruct (Nat.eqb_spec a b)
  | |- context [(?a <=? ?b)%nat] => destruct (Nat.leb_spec a b)
  | |- context [(?a <? ?b)%nat] => destruct (Nat.ltb_spec a b)
  end; cbn [andb orb negb]; subst; try lia.

Lemma length_update {A} i (x : A) l : List.length (update i x l) = List.length l.
Proof. revert i; induction l as [|h t IH]; intros [|i]; simpl; auto. Qed.

Lemma nth_update_same {A} i (x d : A) l : i < List.length l -> nth i (update i x l) d = x.
Proof.
  revert i; induction l as [|h t IH]; intros [|i] H; simpl in *; try lia; auto.
  apply IH; lia.
Qed.

Lemma nth_update_other {A} i i' (x d : A) l : i' <> i -> nth i' (update i x l) d = nth i' l d.
Proof.
  revert i i'; induction l as [|h t IH]; intros [|i] [|i'] H; simpl; auto; try congruence.
Qed.

Lemma Forall_update {A} (P : A -> Prop) i x l : P x -> Forall P l -> Forall P (update i x l).
Proof.
  intros Hx. revert i. induction l as [|h t IH]; intros [|i] H; simpl; auto;
    inversion H; subst; constructor; auto.
Qed.

Lemma nth_map_default {A C} (f : A -> C) l i d d' :
  i < List.length l -> nth i (map f l) d = f (nth i l d').
Proof.
  intros H. rewrite (nth_indep _ d (f d')) by (rewrite length_map; lia). apply map_nth.
Qed.

Lemma nth_map_seq {A} (f : nat -> A) n i d : i < n -> nth i (map f (seq 0 n)) d = f i.
Proof.
  intros H. rewrite (nth_indep _ d (f 0)) by (rewrite length_map, length_seq; lia).
  rewrite map_nth. now rewrite seq_nth.
Qed.

Lemma fold_left_ext_in {A C} (f g : A -> C -> A) l a :
  (forall a x, In x l -> f a x = g a x) -> fold_left f l a = fold_left g l a.
Proof.
  revert a. induction l as [|x l IH]; intros a H; cbn; auto.
  rewrite H by now left. apply IH. intros; apply H; now right.
Qed.

Lemma filter_map_comm {A C} (p : C -> bool) (g : A -> C) l :
  filter p (map g l) = map g (filter (fun x => p (g x)) l).
Proof.
  induction l as [|x l IH]; cbn; [reflexivity|].
  destruct (p (g x)); cbn; now rewrite IH.
Qed.

Lemma length_mapi_from {A C} (f : nat -> A -> C) i l :
  List.length (mapi_from f i l) = List.length l.
Proof. revert i; induction l; intros; cbn; auto. Qed.

Lemma nth_error_mapi_from {A C} (f : nat -> A -> C) i l k :
  nth_error (mapi_from f i l) k = option_map (f (i + k)) (nth_error l k).
Proof.
  revert i k; induction l as [|x l IH]; intros i [|k]; cbn; auto.
  - now rewrite Nat.add_0_r.
  - rewrite IH. now rewrite Nat.add_succ_r.
Qed.

Lemma In_mapi_from {A C} (f : nat -> A -> C) i l y :
  In y (mapi_from f i l) -> exists k x, y = f k x.
Proof.
  revert i; induction l as [|x l IH]; intros i H; cbn in H; [easy|].
  destruct H as [<-|H]; eauto.
Qed.

Lemma mapi_from_seq {A C} (f : nat -> A -> C) (d : A) s l :
  mapi_from f s l = map (fun i => f i (nth (i - s) l d)) (seq s (List.length l)).
Proof.
  revert s. induction l as [|x l IH]; intros s;
    cbn [mapi_from List.length seq map]; [reflexivity|].
  rewrite Nat.sub_diag. cbn [nth]. f_equal. rewrite IH.
  apply map_ext_in. intros i Hi. apply in_seq in Hi.
  replace (i - s) with (S (i - S s)) by lia. reflexivity.
Qed.

Lemma StronglySorted_seq s n : StronglySorted lt (seq s n).
Proof.
  revert s. induction n as [|n IH]; intros s; cbn; constructor; [apply IH|].
  apply Forall_forall. intros i Hi. apply in_seq in Hi. lia.
Qed.

Lemma StronglySorted_filter {A} (R : A -> A -> Prop) p l :
  StronglySorted R l -> StronglySorted R (filter p l).
Proof.
  induction 1 as [|x l Hs IH Hx]; cbn; [constructor|].
  destruct (p x); [|assumption]. constructor; [assumption|].
  rewrite Forall_forall in *. intros y Hy. apply filter_In in Hy. now apply Hx.
Qed.

Lemma StronglySorted_map {A C} (R : C -> C -> Prop) (g : A -> C) l :
  StronglySorted (fun a b => R (g a) (g b)) l -> StronglySorted R (map g l).
Proof.
  induction 1 as [|x l Hs IH Hx]; cbn; constructor; [assumption|].
  rewrite Forall_forall in *. intros y Hy. apply in_map_iff in Hy.
  destruct Hy as (a & <- & Ha). now apply Hx.
Qed.

Lemma StronglySorted_impl {A} (R S : A -> A -> Prop) (P : A -> Prop) l :
  Forall P l -> (forall a b, P a -> P b -> R a b -> S a b) ->
  StronglySorted R l -> StronglySorted S l.
Proof.
  intros HP HRS H. induction H as [|x l Hs IH Hx]; [constructor|].
  inversion HP as [|? ? Px Pl]; subst. constructor; [auto|].
  rewrite Forall_forall in *. intros y Hy. apply HRS; auto.
Qed.

(* ================================================================== *)
(** * 5. The tokenizer                                                 *)
(* ================================================================== *)

Lemma split_nonempty sep s : split sep s <> [].
Proof.
  destruct s as [|c s]; simpl; [discriminate|].
  destruct (c =? sep)%N; [discriminate|].
  destruct (split sep s); discriminate.
Qed.

Lemma join_cons sep f g fs : join sep (f :: g :: fs) = f ++ sep :: join sep (g :: fs).
Proof. reflexivity. Qed.

Lemma join_split sep s : join sep (split sep s) = s.
Proof.
  induction s as [|c s IH]; [reflexivity|].
  cbn [split]. pose proof (split_nonempty sep s) as Hne.
  destruct (split sep s) as [|g gs]; [congruence|].
  destruct (N.eqb_spec c sep) as [->|_].
  - rewrite join_cons. cbn [app]. now rewrite IH.
  - destruct gs as [|h hs].
    + cbn [join] in *. now rewrite IH.
    + rewrite join_cons in *. cbn [app]. now rewrite IH.
Qed.

Lemma split_no_sep sep s : Forall (fun f => ~ In sep f) (split sep s).
Proof.
  induction s as [|c s IH]; simpl.
  - constructor; auto.
  - destruct (N.eqb_spec c sep) as [->|Hne].
    + constructor; auto.
    + destruct (split sep s) as [|g gs]; inversion IH; subst; constructor; auto;
        simpl; intuition congruence.
Qed.

Lemma join_head_tail sep f fs : join sep (f :: fs) = f ++ join_tail sep fs.
Proof. destruct fs; simpl; [now rewrite app_nil_r|reflexivity]. Qed.

Lemma fragment_inj sep (f g t1 t2 : jsstring) :
  ~ In sep f -> ~ In sep g ->
  (t1 = [] \/ exists r, t1 = sep :: r) -> (t2 = [] \/ exists r, t2 = sep :: r) ->
  f ++ t1 = g ++ t2 -> f = g /\ t1 = t2.
Proof.
  revert g. induction f as [|c f IH]; intros [|d g] Hf Hg H1 H2 E; simpl in *.
  - auto.
  - destruct H1 as [->|[r ->]]; [discriminate|].
    injection E as -> _. exfalso. apply Hg. now left.
  - destruct H2 as [->|[r ->]]; [discriminate|].
    injection E as -> _. exfalso. apply Hf. now left.
  - injection E as -> E.
    destruct (IH g) as [-> ->]; auto.
Qed.

(** A string splits in one way only into fragments free of the separator. *)
Lemma join_unique sep (fs gs : list jsstring) :
  fs <> [] -> gs <> [] ->
  Forall (fun f => ~ In sep f) fs -> Forall (fun f => ~ In sep f) gs ->
  join sep fs = join sep gs -> fs = gs.
Proof.
  revert gs. induction fs as [|f fs IH]; intros [|g gs] Hfs Hgs Ff Fg E; try congruence.
  inversion Ff as [|? ? Hf Ff']; inversion Fg as [|? ? Hg Fg']; subst.
  rewrite !join_head_tail in E.
  apply (fragment_inj sep) in E; auto.
  - destruct E as [-> E]. f_equal.
    destruct fs as [|f' fs], gs as [|g' gs]; simpl in E; try discriminate; auto.
    injection E as E. apply IH; auto; discriminate.
  - destruct fs; simpl; eauto.
  - destruct gs; simpl; eauto.
Qed.

Lemma trimStart_spec s :
  exists pre,
    s = pre ++ trimStart s /\ forallb is_whitespace pre = true
    /\ (forall c r, trimStart s = c :: r -> is_whitespace c = false).
Proof.
  induction s as [|c s (pre & E & Hp & Hh)]; cbn [trimStart].
  - exists []. repeat split. discriminate.
  - destruct (is_whitespace c) eqn:W.
    + exists (c :: pre). cbn. rewrite W, Hp. repeat split; [now f_equal|assumption].
    + exists []. repeat split. intros c' r H. now injection H as <- _.
Qed.

Lemma trimEnd_spec s :
  exists post,
    s = trimEnd s ++ post /\ forallb is_whitespace post = true
    /\ (forall r c, trimEnd s = r ++ [c] -> is_whitespace c = false).
Proof.
  unfold trimEnd. destruct (trimStart_spec (rev s)) as (pre & E & Hp & Hh).
  exists (rev pre). split; [|split].
  - rewrite <- rev_app_distr, <- E. now rewrite rev_involutive.
  - rewrite forallb_forall in *. intros c Hc. apply Hp. now apply in_rev.
  - intros r c H. apply (Hh c (rev r)).
    rewrite <- (rev_involutive (trimStart (rev s))), H, rev_app_distr. reflexivity.
Qed.

Lemma trimStart_all_whitespace s : forallb is_whitespace s = true -> trimStart s = [].
Proof.
  induction s as [|c s IH]; simpl; [reflexivity|].
  intros H. apply andb_prop in H. destruct H as [Hc Hs]. rewrite Hc. auto.
Qed.

Lemma tokens_whitespace s : forallb is_whitespace s = true -> tokens s = [].
Proof.
  intros H. unfold tokens, trim. rewrite (trimStart_all_whitespace _ H). reflexivity.
Qed.




(* ================================================================== *)
(** * 6. [matMul]                                                      *)
(* ================================================================== *)

(** ** 6.1 Reads and writes of [result] *)

Lemma shape_row r c m i : shape r c m -> i < r -> List.length (nth i m []) = c.
Proof.
  intros [Hl Hf] Hi. rewrite Forall_forall in Hf. apply Hf. apply nth_In. lia.
Qed.

Lemma shape_nil c : shape 0 c [].
Proof. split; [reflexivity|constructor]. Qed.

Lemma set2_shape r c m i j x : shape r c m -> i < r -> shape r c (set2 m i j x).
Proof.
  intros Hs Hi. pose proof (shape_row _ _ _ _ Hs Hi) as Hr.
  destruct Hs as [Hl Hf]. unfold set2. split.
  - now rewrite length_update.
  - apply Forall_update; auto. now rewrite length_update.
Qed.

Lemma get2_set2_same r c m i j x :
  shape r c m -> i < r -> j < c -> get2 (set2 m i j x) i j = x.
Proof.
  intros Hs Hi Hj. pose proof (shape_row _ _ _ _ Hs Hi) as Hr.
  destruct Hs as [Hl Hf]. unfold get2, set2.
  rewrite nth_update_same by lia. apply nth_update_same. lia.
Qed.

Lemma get2_set2_other m i j x i' j' :
  (i' <> i \/ j' <> j) -> get2 (set2 m i j x) i' j' = get2 m i' j'.
Proof.
  intros H. unfold get2, set2.
  destruct (Nat.eq_dec i' i) as [->|Hne].
  - destruct H as [H|H]; [congruence|].
    destruct (Nat.lt_ge_cases i (List.length m)) as [Hlt|Hge].
    + rewrite nth_update_same by lia. now apply nth_update_other.
    + rewrite (nth_overflow (update _ _ _)) by (rewrite length_update; lia).
      now rewrite (nth_overflow m) by lia.
  - now rewrite nth_update_other.
Qed.

Lemma shape_repeat {r c} (x : float) : shape r c (repeat (repeat x c) r).
Proof.
  split; [apply repeat_length|].
  apply Forall_forall. intros row H. apply repeat_spec in H. subst. apply repeat_length.
Qed.

Lemma get2_repeat r c (x : float) i j : i < r -> j < c -> get2 (repeat (repeat x c) r) i j = x.
Proof.
  intros Hi Hj. unfold get2.
  rewrite (nth_indep _ [] (repeat x c)) by (rewrite repeat_length; lia).
  rewrite nth_repeat. rewrite (nth_indep _ nan x) by (rewrite repeat_length; lia).
  apply nth_repeat.
Qed.

Lemma shape_map r c (f : float -> float) m : shape r c m -> shape r c (map (map f) m).
Proof.
  intros [Hl Hf]. split; [now rewrite length_map|].
  apply Forall_forall. intros row H. apply in_map_iff in H. destruct H as (row' & <- & H).
  rewrite length_map. rewrite Forall_forall in Hf. auto.
Qed.

Lemma get2_map r c (f : float -> float) m i j :
  shape r c m -> i < r -> j < c -> get2 (map (map f) m) i j = f (get2 m i j).
Proof.
  intros Hs Hi Hj. pose proof (shape_row _ _ _ _ Hs Hi) as Hr. destruct Hs as [Hl Hf].
  unfold get2. rewrite (nth_map_default _ _ _ _ []) by lia.
  now rewrite (nth_map_default _ _ _ _ nan) by lia.
Qed.

Lemma matrix_ext r c (m1 m2 : matrix) :
  shape r c m1 -> shape r c m2 ->
  (forall i j, i < r -> j < c -> get2 m1 i j = get2 m2 i j) -> m1 = m2.
Proof.
  intros H1 H2 H.
  apply (nth_ext _ _ [] []); [destruct H1, H2; congruence|].
  intros i Hi. destruct H1 as [L1 F1]. rewrite L1 in Hi.
  assert (S1 : shape r c m1) by (split; auto).
  apply (nth_ext _ _ nan nan).
  - rewrite (shape_row r c m1), (shape_row r c m2); auto.
  - intros j Hj. rewrite (shape_row r c m1) in Hj by auto. now apply H.
Qed.

(** ** 6.2 The three loops *)

Lemma index_present v k : present v = true -> index v k = Ok (elem v k).
Proof. destruct v; simpl; congruence || auto. Qed.

Lemma present_nth l k :
  forallb present l = true -> k < List.length l -> present (nth k l Undefined) = true.
Proof.
  intros H Hk. rewrite forallb_forall in H. apply H. now apply nth_In.
Qed.

Section Loops.

Variables la lb : list value.
Hypothesis rows_of_A : forallb present la = true.
Hypothesis rows_of_B : forallb present lb = true.
Variables r c : nat.

Let A := Arr la.
Let B := Arr lb.

Lemma matMul_step_ok i j k m :
  i < List.length la -> k < List.length lb ->
  matMul_step A B i j k m = Ok (set2 m i j (dot_step A B i j (get2 m i j) k)).
Proof.
  intros Hi Hk. unfold matMul_step, dot_step. simpl.
  rewrite (index_present (nth i la Undefined)) by now apply present_nth.
  simpl. rewrite (index_present (nth k lb Undefined)) by now apply present_nth.
  reflexivity.
Qed.

(** The loop over [k] adds the products to [result[i][j]] and touches no
    other cell. *)
Lemma k_loop i j n from m :
  shape r c m -> i < r -> j < c -> i < List.length la -> from + n <= List.length lb ->
  exists m',
    for_loop n from (matMul_step A B i j) m = Ok m'
    /\ shape r c m'
    /\ get2 m' i j = fold_left (dot_step A B i j) (seq from n) (get2 m i j)
    /\ forall i' j', (i' <> i \/ j' <> j) -> get2 m' i' j' = get2 m i' j'.
Proof.
  revert from m. induction n as [|n IH]; intros from m Hs Hi Hj Hia Hk.
  - exists m. simpl. auto.
  - cbn [for_loop seq fold_left]. rewrite matMul_step_ok by lia. cbn [bind].
    destruct (IH (S from) (set2 m i j (dot_step A B i j (get2 m i j) from)))
      as (m' & E & Hs' & Hg & Ho); auto; try lia.
    { now apply set2_shape. }
    exists m'. split; [exact E|]. split; [exact Hs'|]. split.
    + rewrite Hg. now rewrite (get2_set2_same r c).
    + intros i' j' H. rewrite Ho by auto. now apply get2_set2_other.
Qed.

Lemma j_loop i n from m :
  shape r c m -> i < r -> from + n <= c -> i < List.length la ->
  exists m',
    for_loop n from (j_body A B i) m = Ok m'
    /\ shape r c m'
    /\ forall i' j',
         get2 m' i' j' =
         if (i' =? i)%nat && (from <=? j')%nat && (j' <? from + n)%nat
         then fold_left (dot_step A B i j') (seq 0 (List.length lb)) (get2 m i' j')
         else get2 m i' j'.
Proof.
  revert from m. induction n as [|n IH]; intros from m Hs Hi Hj Hia.
  - exists m. split; [reflexivity|]. split; [assumption|].
    intros i' j'. nat_cases; reflexivity.
  - cbn [for_loop]. unfold j_body at 1. cbn [size B].
    destruct (k_loop i from (List.length lb) 0 m) as (m1 & E1 & Hs1 & Hg1 & Ho1);
      auto; try lia.
    rewrite E1. cbn [bind].
    destruct (IH (S from) m1) as (m' & E & Hs' & Hg); auto; try lia.
    exists m'. split; [exact E|]. split; [exact Hs'|].
    intros i' j'. rewrite Hg.
    destruct (Nat.eq_dec i' i) as [->|Hi'];
      [destruct (Nat.eq_dec j' from) as [->|Hj']|].
    + rewrite Hg1. nat_cases; reflexivity.
    + rewrite (Ho1 i j') by auto. nat_cases; reflexivity.
    + rewrite (Ho1 i' j') by auto. nat_cases; reflexivity.
Qed.

Lemma i_loop n from m :
  shape r c m -> from + n <= r -> from + n <= List.length la ->
  exists m',
    for_loop n from (i_body A B c) m = Ok m'
    /\ shape r c m'
    /\ forall i' j',
         get2 m' i' j' =
         if (from <=? i')%nat && (i' <? from + n)%nat && (j' <? c)%nat
         then fold_left (dot_step A B i' j') (seq 0 (List.length lb)) (get2 m i' j')
         else get2 m i' j'.
Proof.
  revert from m. induction n as [|n IH]; intros from m Hs Hr Hia.
  - exists m. split; [reflexivity|]. split; [assumption|].
    intros i' j'. nat_cases; reflexivity.
  - cbn [for_loop]. unfold i_body at 1.
    destruct (j_loop from c 0 m) as (m1 & E1 & Hs1 & Hg1); auto; try lia.
    rewrite E1. cbn [bind].
    destruct (IH (S from) m1) as (m' & E & Hs' & Hg); auto; try lia.
    exists m'. split; [exact E|]. split; [exact Hs'|].
    intros i' j'. rewrite Hg, !Hg1. nat_cases; reflexivity.
Qed.

End Loops.

(** ** 6.3 The guard and the result *)

Lemma matMul_guard_spec A B : matMul_guard A B = Ok (degenerate A B).
Proof.
  unfold matMul_guard, degenerate, falsy.
  destruct A as [| |x|[|a0 la]]; cbn; try reflexivity;
    destruct B as [| |y|[|b0 lb]]; cbn; try reflexivity;
    repeat match goal with
    | |- context [truthy_num ?x] => destruct (truthy_num x); cbn; try reflexivity
    | |- context [truthy ?x] => destruct (truthy x); cbn; try reflexivity
    end.
Qed.

Lemma matMul_degenerate A B : degenerate A B = true -> matMul A B = Ok [].
Proof.
  intros H. unfold matMul. rewrite matMul_guard_spec, H. reflexivity.
Qed.

(** When every row can be indexed, [matMul] completes normally and each cell
    of its result is the rounded sum of section 3.3. *)
Lemma matMul_cells (A B : value) :
  rows_present A = true -> rows_present B = true ->
  exists R,
    matMul A B = Ok R
    /\ if degenerate A B then R = []
       else shape (size A) (size (elem B 0)) R
            /\ forall i j, i < size A -> j < size (elem B 0) ->
               get2 R i j = round2 (cell A B i j).
Proof.
  intros HA HB. destruct (degenerate A B) eqn:D.
  - exists []. split; [now apply matMul_degenerate|reflexivity].
  - unfold matMul. rewrite matMul_guard_spec, D. cbn [bind].
    unfold degenerate in D. rewrite !orb_false_iff in D.
    destruct D as (((((_ & _) & HsA) & HsB) & Ha0) & Hb0).
    destruct A as [| |x|[|a0 la]]; try discriminate.
    destruct B as [| |y|[|b0 lb]]; try discriminate.
    cbn [elem nth] in Ha0, Hb0. apply negb_false_iff in Ha0, Hb0.
    cbn [length_of index nth bind to_length size elem].
    assert (Hc : exists c, length_of b0 = Ok c /\ to_length c = size b0).
    { destruct b0; try discriminate; cbn; eauto. }
    destruct Hc as (cl & -> & Hc). cbn [bind]. rewrite Hc.
    set (r := List.length (a0 :: la)). set (c := size b0).
    destruct (i_loop (a0 :: la) (b0 :: lb) HA HB r c r 0 (repeat (repeat 0%float c) r))
      as (m' & E & Hs & Hg); try (subst r; lia).
    { apply shape_repeat. }
    unfold i_body, j_body in E. cbn [size] in E. rewrite E. cbn [bind].
    eexists. split; [reflexivity|]. split.
    + now apply shape_map.
    + intros i j Hi Hj. rewrite (get2_map r c) by assumption.
      f_equal. rewrite Hg.
      replace ((0 <=? i)%nat && (i <? 0 + r)%nat && (j <? c)%nat) with true
        by (symmetry; nat_cases; reflexivity).
      now rewrite get2_repeat.
Qed.




(** ** 6.4 Matrices of Numbers *)

Lemma rows_present_of_matrix m : rows_present (of_matrix m) = true.
Proof.
  unfold of_matrix. cbn. apply forallb_forall. intros v H.
  apply in_map_iff in H. now destruct H as (row & <- & _).
Qed.

Lemma size_of_matrix m : size (of_matrix m) = List.length m.
Proof. unfold of_matrix. cbn. apply length_map. Qed.

Lemma elem_of_row row k : ToNumber (elem (of_row row) k) = nth k row nan.
Proof.
  unfold of_row. cbn. revert k. induction row as [|x row IH]; intros [|k]; cbn; auto.
Qed.

Lemma elem_of_matrix m i :
  elem (of_matrix m) i = if (i <? List.length m)%nat then of_row (nth i m []) else Undefined.
Proof.
  unfold of_matrix. cbn. revert i. induction m as [|row m IH]; intros [|i]; cbn; auto.
Qed.

Lemma ToNumber_elem2 m i k : ToNumber (elem (elem (of_matrix m) i) k) = get2 m i k.
Proof.
  rewrite elem_of_matrix. unfold get2. destruct (Nat.ltb_spec i (List.length m)).
  - apply elem_of_row.
  - rewrite (nth_overflow m) by lia. now destruct k.
Qed.

Lemma cell_of_matrix A B i j : cell (of_matrix A) (of_matrix B) i j = dot A B i j.
Proof.
  unfold cell, dot. rewrite size_of_matrix.
  apply fold_left_ext_in. intros a k _. unfold dot_step.
  now rewrite !ToNumber_elem2.
Qed.

Lemma degenerate_of_matrix A B :
  degenerate (of_matrix A) (of_matrix B)
  = (List.length A =? 0)%nat || (List.length B =? 0)%nat.
Proof.
  unfold degenerate. rewrite !size_of_matrix, !elem_of_matrix.
  destruct A as [|a A], B as [|b B]; reflexivity.
Qed.

Lemma shape_product A B :
  List.length A <> 0 -> List.length B <> 0 ->
  shape (List.length A) (List.length (nth 0 B [])) (product A B).
Proof.
  intros HA HB. unfold product.
  replace ((List.length A =? 0)%nat || (List.length B =? 0)%nat) with false
    by (symmetry; nat_cases; reflexivity).
  split.
  - now rewrite length_map, length_seq.
  - apply Forall_forall. intros row H. apply in_map_iff in H.
    destruct H as (i & <- & _). now rewrite length_map, length_seq.
Qed.

Lemma get2_product A B i j :
  i < List.length A -> List.length B <> 0 -> j < List.length (nth 0 B []) ->
  get2 (product A B) i j = round2 (dot A B i j).
Proof.
  intros Hi HB Hj. unfold product.
  replace ((List.length A =? 0)%nat || (List.length B =? 0)%nat) with false
    by (symmetry; nat_cases; reflexivity).
  unfold get2. rewrite nth_map_seq by lia. now rewrite nth_map_seq.
Qed.

Lemma matMul_of_matrix (A B : matrix) :
  matMul (of_matrix A) (of_matrix B) = Ok (product A B).
Proof.
  destruct (matMul_cells (of_matrix A) (of_matrix B)) as (R & E & H);
    try apply rows_present_of_matrix.
  rewrite E. f_equal. rewrite degenerate_of_matrix in H.
  destruct ((List.length A =? 0)%nat || (List.length B =? 0)%nat) eqn:D.
  - subst R. unfold product. now rewrite D.
  - apply orb_false_iff in D. destruct D as [DA DB].
    apply Nat.eqb_neq in DA, DB.
    destruct H as [Hs Hg]. rewrite size_of_matrix in *.
    assert (Hc : size (elem (of_matrix B) 0) = List.length (nth 0 B [])).
    { rewrite elem_of_matrix. destruct B; [easy|]. cbn. apply length_map. }
    rewrite Hc in *.
    apply (matrix_ext _ _ _ _ Hs (shape_product A B DA DB)).
    intros i j Hi Hj. rewrite Hg, get2_product by auto.
    now rewrite cell_of_matrix.
Qed.

(** ** 6.5 Mismatched inner dimensions *)

Lemma nan_add_l x : (nan + x)%float = nan.
Proof.
  apply Prim2SF_inj. rewrite FloatAxioms.add_spec.
  change (Prim2SF nan) with S754_nan. reflexivity.
Qed.

Lemma nan_add_r x : (x + nan)%float = nan.
Proof.
  apply Prim2SF_inj. rewrite FloatAxioms.add_spec.
  change (Prim2SF nan) with S754_nan. now destruct (Prim2SF x).
Qed.

Lemma nan_mul_l x : (nan * x)%float = nan.
Proof.
  apply Prim2SF_inj. rewrite FloatAxioms.mul_spec.
  change (Prim2SF nan) with S754_nan. reflexivity.
Qed.

Lemma round2_nan : round2 nan = nan.
Proof. vm_compute. reflexivity. Qed.

Lemma fold_from_nan (g : nat -> float) l :
  fold_left (fun acc k => acc + g k)%float l nan = nan.
Proof.
  induction l as [|k l IH]; cbn [fold_left]; [reflexivity|]. now rewrite nan_add_l.
Qed.

Lemma fold_hits_nan (g : nat -> float) l a k :
  In k l -> g k = nan -> fold_left (fun acc k => acc + g k)%float l a = nan.
Proof.
  revert a. induction l as [|k' l IH]; intros a Hin Hk; [easy|].
  cbn [fold_left]. destruct Hin as [->|Hin].
  - rewrite Hk, nan_add_r. apply fold_from_nan.
  - now apply IH.
Qed.

Lemma dot_short_row A B i j :
  List.length (nth i A []) < List.length B -> dot A B i j = nan.
Proof.
  intros H. unfold dot.
  apply (fold_hits_nan (fun k => get2 A i k * get2 B k j)%float _ _ (List.length (nth i A []))).
  - apply in_seq. lia.
  - unfold get2 at 1. rewrite nth_overflow by lia. apply nan_mul_l.
Qed.

Lemma get2_firstn n A i k : k < n -> get2 (map (firstn n) A) i k = get2 A i k.
Proof.
  intros H. unfold get2.
  destruct (Nat.lt_ge_cases i (List.length A)) as [Hi|Hi].
  - rewrite (nth_map_default _ _ _ _ []) by assumption.
    rewrite nth_firstn. now apply Nat.ltb_lt in H; rewrite H.
  - rewrite (nth_overflow (map _ _)) by (rewrite length_map; lia).
    now rewrite (nth_overflow A) by lia.
Qed.

(** C9, as amended.  [matMul] validates no dimension: on matrices of Numbers
    of any shapes it completes normally; a row of [A] shorter than
    [B.length] gives a row of [NaN], and what a row of [A] holds beyond
    [B.length] is ignored. *)
Theorem matMul_unchecked (A B : matrix) :
  matMul (of_matrix A) (of_matrix B) = Ok (product A B)
  /\ (forall i j,
        i < List.length A -> List.length (nth i A []) < List.length B ->
        j < List.length (nth 0 B []) -> get2 (product A B) i j = nan)
  /\ product (map (firstn (List.length B)) A) B = product A B.
Proof.
  split; [apply matMul_of_matrix|]. split.
  - intros i j Hi Hshort Hj.
    rewrite get2_product by (auto; lia).
    rewrite dot_short_row by assumption. apply round2_nan.
  - unfold product. rewrite length_map.
    destruct ((List.length A =? 0)%nat || (List.length B =? 0)%nat); [reflexivity|].
    apply map_ext. intros i. apply map_ext. intros j. f_equal.
    unfold dot. apply fold_left_ext_in. intros a k Hk. apply in_seq in Hk.
    rewrite get2_firstn by lia. reflexivity.
Qed.

Lemma matMul_unchecked_witness :
  get2 (product [[1]]%float [[1]; [1]]%float) 0 0 = nan.
Proof.
  apply (proj1 (proj2 (matMul_unchecked [[1]]%float [[1]; [1]]%float)) 0 0);
    cbn; lia.
Defined.

(** C9 as stated fails: a row of three embedding components against the
    four rows of [WQ] raises nothing and yields [NaN]. *)
Lemma matMul_short_row_counterexample :
  matMul (of_matrix [[0.2; 1; 0.3]]%float) (of_matrix WQ) = Ok [[nan; nan]].
Proof. vm_compute. reflexivity. Qed.

(* ================================================================== *)
(** * 7. The stages of the engine                                      *)
(* ================================================================== *)

Lemma ecma262_reference : ecma262 Reference.host.
Proof. split; vm_compute; reflexivity. Qed.

Lemma leibniz_neq (a b : float) : Leibniz.eqb a b = false -> a <> b.
Proof.
  intros H E. apply Leibniz.eqb_spec in E. congruence.
Qed.

(** ** 7.1 The embedder *)

Lemma shape_embeddings B toks : shape (List.length toks) 4 (embeddings_of B toks).
Proof.
  unfold embeddings_of, mapi. destruct toks as [|t toks]; [apply shape_nil|].
  cbn [List.length Nat.ltb Nat.leb]. split.
  - now rewrite length_mapi_from.
  - apply Forall_forall. intros row H. apply In_mapi_from in H.
    destruct H as (k & x & ->). reflexivity.
Qed.




(** The two roundings part on a negative tie, and only there. *)
Lemma round2_half_away_nonneg (v : float) :
  (v * 100 <? 0)%float = false -> round2 v = round2_half_away v.
Proof. intros H. unfold round2, round2_half_away. now rewrite H. Qed.

Lemma round2_negative_tie :
  Math_round (-2.5) = (-2)%float /\ round2 (-0.025) <> round2_half_away (-0.025).
Proof.
  split; [vm_compute; reflexivity|]. apply leibniz_neq. vm_compute. reflexivity.
Qed.

(** C3, as amended.  On "The cat sat on the mat" the token "The" at position
    0 is embedded as [0.2, 1, 0.3, 0.4]: ['T'] is 84 and [84 % 10 = 4]. *)
Theorem first_embedding (B : builtins) :
  ecma262 B ->
  nth_error (embeddings B the_cat) 0 = Some [0.2; 1; 0.3; 0.4]%float.
Proof.
  intros E. unfold embeddings.
  replace (tokens the_cat)
    with [str "The"; str "cat"; str "sat"; str "on"; str "the"; str "mat"]
    by (vm_compute; reflexivity).
  unfold embeddings_of, mapi. cbn [List.length Nat.ltb Nat.leb mapi_from nth_error].
  unfold base. cbn [map].
  replace (of_nat 0 * 0.5)%float with 0%float by (vm_compute; reflexivity).
  replace (of_nat 0 * 0.3)%float with 0%float by (vm_compute; reflexivity).
  rewrite (sin_zero B E), (cos_zero B E).
  vm_compute. reflexivity.
Qed.

Lemma first_embedding_witness :
  nth_error (embeddings Reference.host the_cat) 0 = Some [0.2; 1; 0.3; 0.4]%float.
Proof. apply (first_embedding Reference.host). split; vm_compute; reflexivity. Defined.

(** C3 as stated fails: whatever the host computes, the fourth component is
    [0.4], not [0.8]. *)
Lemma first_embedding_counterexample :
  ~ exists B, nth_error (embeddings B the_cat) 0 = Some [0.2; 1; 0.3; 0.8]%float.
Proof.
  intros [B H].
  apply (f_equal (fun r => match r with Some row => nth 3 row nan | None => nan end)) in H.
  revert H. apply leibniz_neq. vm_compute. reflexivity.
Qed.

(** ** 7.2 Projections and scores *)

Lemma Q_product B inputText : Q B inputText = Ok (product (embeddings B inputText) WQ).
Proof.
  unfold Q. destruct (embeddings B inputText) eqn:E; [reflexivity|]. apply matMul_of_matrix.
Qed.

Lemma K_product B inputText : K B inputText = Ok (product (embeddings B inputText) WK).
Proof.
  unfold K. destruct (embeddings B inputText) eqn:E; [reflexivity|]. apply matMul_of_matrix.
Qed.

Lemma V_product B inputText : V B inputText = Ok (product (embeddings B inputText) WV).
Proof.
  unfold V. destruct (embeddings B inputText) eqn:E; [reflexivity|]. apply matMul_of_matrix.
Qed.

Lemma shape_projection B inputText W :
  List.length W <> 0 ->
  shape (seqLen inputText) (List.length (nth 0 W [])) (product (embeddings B inputText) W).
Proof.
  intros HW. pose proof (shape_embeddings B (tokens inputText)) as [Hl _].
  fold (embeddings B inputText) in Hl. unfold seqLen. rewrite <- Hl.
  destruct (embeddings B inputText) as [|e es] eqn:E.
  - apply shape_nil.
  - apply shape_product; [discriminate|assumption].
Qed.

Lemma rows_present_transpose k : rows_present (transpose k) = true.
Proof.
  unfold transpose. cbn. apply forallb_forall. intros v H.
  apply in_map_iff in H. now destruct H as (i & <- & _).
Qed.

Lemma size_transpose k : size (transpose k) = List.length (nth 0 k []).
Proof. unfold transpose. cbn. now rewrite length_map, length_seq. Qed.

Lemma elem_transpose k t :
  t < List.length (nth 0 k []) ->
  elem (transpose k) t = Arr (map (fun row => row_index row t) k).
Proof. intros H. unfold transpose. cbn. now rewrite nth_map_seq. Qed.

Lemma ToNumber_row_index row t : ToNumber (row_index row t) = nth t row nan.
Proof.
  unfold row_index. destruct (nth_error row t) eqn:E.
  - symmetry. now apply nth_error_nth.
  - apply nth_error_None in E. now rewrite nth_overflow.
Qed.

Lemma ToNumber_elem_transpose k t j :
  t < List.length (nth 0 k []) -> j < List.length k ->
  ToNumber (elem (elem (transpose k) t) j) = get2 k j t.
Proof.
  intros Ht Hj. rewrite elem_transpose by assumption. cbn [elem].
  rewrite (nth_map_default _ _ _ _ []) by lia. apply ToNumber_row_index.
Qed.

(** [matMul(Q, K transposed)] dots each row of [Q] with each row of [K]. *)
Lemma matMul_transpose q k :
  List.length q <> 0 -> List.length k <> 0 -> List.length (nth 0 k []) <> 0 ->
  exists s,
    matMul (of_matrix q) (transpose k) = Ok s
    /\ shape (List.length q) (List.length k) s
    /\ forall i j, i < List.length q -> j < List.length k ->
       get2 s i j = round2 (dot_rows q k i j).
Proof.
  intros Hq Hk Hc.
  destruct (matMul_cells (of_matrix q) (transpose k)) as (s & E & H).
  { apply rows_present_of_matrix. }
  { apply rows_present_transpose. }
  exists s. split; [exact E|].
  assert (D : degenerate (of_matrix q) (transpose k) = false).
  { unfold degenerate. rewrite size_of_matrix, size_transpose, elem_of_matrix.
    rewrite elem_transpose by lia.
    destruct q; [easy|]. cbn. nat_cases; reflexivity. }
  rewrite D in H. destruct H as [Hs Hg].
  rewrite size_of_matrix in *. rewrite elem_transpose in * by lia.
  cbn [size] in *. rewrite length_map in *.
  split; [exact Hs|].
  intros i j Hi Hj. rewrite Hg by assumption. f_equal.
  unfold cell, dot_rows. rewrite size_transpose.
  apply fold_left_ext_in. intros a t Ht. apply in_seq in Ht. unfold dot_step.
  rewrite ToNumber_elem2, ToNumber_elem_transpose by lia. reflexivity.
Qed.

Lemma engine_scores B inputText :
  exists s,
    scores B inputText = Ok s
    /\ shape (seqLen inputText) (seqLen inputText) s
    /\ forall i j, i < seqLen inputText -> j < seqLen inputText ->
       get2 s i j =
       round2 (dot_rows (product (embeddings B inputText) WQ)
                        (product (embeddings B inputText) WK) i j).
Proof.
  unfold scores. rewrite Q_product, K_product. cbn [bind].
  pose proof (shape_projection B inputText WQ) as Sq.
  pose proof (shape_projection B inputText WK) as Sk.
  specialize (Sq ltac:(discriminate)). specialize (Sk ltac:(discriminate)).
  cbn [WQ WK nth List.length] in Sq, Sk.
  set (q := product (embeddings B inputText) WQ) in *.
  set (k := product (embeddings B inputText) WK) in *.
  destruct (Nat.eq_dec (seqLen inputText) 0) as [Hn|Hn].
  - rewrite Hn in *. destruct Sq as [Lq _]. apply length_zero_iff_nil in Lq.
    rewrite Lq. cbn. exists []. split; [reflexivity|]. split; [apply shape_nil|].
    intros; lia.
  - pose proof Sq as [Lq _]. pose proof Sk as [Lk _].
    assert (Hrow : List.length (nth 0 k []) = 2) by (apply (shape_row _ _ _ _ Sk); lia).
    replace ((0 <? List.length q)%nat) with true by (symmetry; apply Nat.ltb_lt; lia).
    replace ((0 <? List.length k)%nat) with true by (symmetry; apply Nat.ltb_lt; lia).
    replace (truthy (nth 0 (map of_row k) Undefined)) with true.
    2:{ destruct k; [cbn in Lk; lia|reflexivity]. }
    cbn [andb].
    destruct (matMul_transpose q k) as (s & E & Hs & Hg); try lia.
    exists s. rewrite Lq, Lk in *. auto.
Qed.

Lemma engine_scaledScores B inputText :
  exists s,
    scores B inputText = Ok s
    /\ scaledScores B inputText = Ok (if (0 <? List.length s)%nat then map (map scale) s else [])
    /\ shape (seqLen inputText) (seqLen inputText)
             (if (0 <? List.length s)%nat then map (map scale) s else []).
Proof.
  destruct (engine_scores B inputText) as (s & Es & Ss & _).
  exists s. split; [exact Es|]. unfold scaledScores. rewrite Es. cbn [bind].
  split; [reflexivity|].
  destruct s; [exact Ss|]. cbn [List.length Nat.ltb Nat.leb]. now apply shape_map.
Qed.

(** C4.  The scores are the rows of [Q] dotted with the rows of [K], a
    [seqLen] by [seqLen] matrix rounded to two decimals; the scaled scores
    divide these rounded scores by [sqrt 2] and round again. *)
Theorem scores_and_scaling (B : builtins) (inputText : jsstring) :
  exists q k s ss,
    Q B inputText = Ok q /\ K B inputText = Ok k
    /\ scores B inputText = Ok s /\ scaledScores B inputText = Ok ss
    /\ shape (seqLen inputText) (seqLen inputText) s
    /\ shape (seqLen inputText) (seqLen inputText) ss
    /\ forall i j, i < seqLen inputText -> j < seqLen inputText ->
       get2 s i j = round2 (0 + get2 q i 0 * get2 k j 0 + get2 q i 1 * get2 k j 1)%float
       /\ get2 ss i j = (Math_round (get2 s i j / PrimFloat.sqrt 2 * 100) / 100)%float.
Proof.
  destruct (engine_scores B inputText) as (s & Es & Ss & Hs).
  exists (product (embeddings B inputText) WQ), (product (embeddings B inputText) WK), s.
  unfold scaledScores. rewrite Es. cbn [bind]. eexists.
  split; [apply Q_product|]. split; [apply K_product|].
  split; [reflexivity|]. split; [reflexivity|]. split; [exact Ss|].
  assert (Sss : shape (seqLen inputText) (seqLen inputText)
                  (if (0 <? List.length s)%nat then map (map scale) s else [])).
  { destruct s; [exact Ss|]. cbn [List.length Nat.ltb Nat.leb]. now apply shape_map. }
  split; [exact Sss|].
  intros i j Hi Hj. split.
  - rewrite Hs by assumption. f_equal. unfold dot_rows.
    pose proof (shape_projection B inputText WK ltac:(discriminate)) as Sk.
    rewrite (shape_row _ _ _ _ Sk) by lia. reflexivity.
  - destruct Ss as [Ls Fs]. destruct s as [|row s]; [cbn in Ls; lia|].
    cbn [List.length Nat.ltb Nat.leb].
    change (get2 (map (map scale) (row :: s)) i j = scale (get2 (row :: s) i j)).
    apply (get2_map (seqLen inputText) (seqLen inputText)); auto. now split.
Qed.

Lemma scores_and_scaling_witness :
  exists s ss,
    scores Reference.host the_cat = Ok s /\ scaledScores Reference.host the_cat = Ok ss
    /\ get2 s 0 1 = 1.37%float /\ get2 ss 0 1 = 0.97%float.
Proof.
  destruct (scores_and_scaling Reference.host the_cat)
    as (q & k & s & ss & Eq & Ek & Es & Ess & _ & _ & H).
  exists s, ss. split; [exact Es|]. split; [exact Ess|].
  assert (Hq : q = product (embeddings Reference.host the_cat) WQ)
    by (rewrite Q_product in Eq; now injection Eq).
  assert (Hk : k = product (embeddings Reference.host the_cat) WK)
    by (rewrite K_product in Ek; now injection Ek).
  destruct (H 0 1) as [H1 H2]; [vm_compute; lia|vm_compute; lia|].
  rewrite H2, H1, Hq, Hk. split; vm_compute; reflexivity.
Defined.

(** ** 7.3 Empty input *)

(** C7.  When the input is empty or holds nothing but what JavaScript counts
    as whitespace (the code units [trim] strips), there is no token and
    every stage is the empty matrix, none of them raising an exception. *)
Theorem whitespace_input_empty (B : builtins) (inputText : jsstring) :
  forallb is_whitespace inputText = true ->
  tokens inputText = []
  /\ embeddings B inputText = []
  /\ Q B inputText = Ok [] /\ K B inputText = Ok [] /\ V B inputText = Ok []
  /\ scores B inputText = Ok [] /\ scaledScores B inputText = Ok []
  /\ attentionWeights B inputText = Ok [] /\ output B inputText = Ok [].
Proof.
  intros H. pose proof (tokens_whitespace _ H) as Ht.
  assert (He : embeddings B inputText = []) by (unfold embeddings; now rewrite Ht).
  assert (HQ : Q B inputText = Ok []) by (unfold Q; now rewrite He).
  assert (HK : K B inputText = Ok []) by (unfold K; now rewrite He).
  assert (HV : V B inputText = Ok []) by (unfold V; now rewrite He).
  assert (Hs : scores B inputText = Ok []) by (unfold scores; now rewrite HQ, HK).
  assert (Hss : scaledScores B inputText = Ok []) by (unfold scaledScores; now rewrite Hs).
  assert (Ha : attentionWeights B inputText = Ok [])
    by (unfold attentionWeights; now rewrite Hss).
  assert (Ho : output B inputText = Ok []) by (unfold output; now rewrite Ha, HV).
  repeat split; assumption.
Qed.

Lemma whitespace_input_empty_witness :
  tokens [32; 9; 10; 160; 8195; 65279]%N = []
  /\ embeddings Reference.host [32; 9; 10; 160; 8195; 65279]%N = []
  /\ Q Reference.host [32; 9; 10; 160; 8195; 65279]%N = Ok []
  /\ K Reference.host [32; 9; 10; 160; 8195; 65279]%N = Ok []
  /\ V Reference.host [32; 9; 10; 160; 8195; 65279]%N = Ok []
  /\ scores Reference.host [32; 9; 10; 160; 8195; 65279]%N = Ok []
  /\ scaledScores Reference.host [32; 9; 10; 160; 8195; 65279]%N = Ok []
  /\ attentionWeights Reference.host [32; 9; 10; 160; 8195; 65279]%N = Ok []
  /\ output Reference.host [32; 9; 10; 160; 8195; 65279]%N = Ok [].
Proof.
  apply (whitespace_input_empty Reference.host [32; 9; 10; 160; 8195; 65279]%N).
  reflexivity.
Defined.

(* ================================================================== *)
(** * 8. [softmax]                                                     *)
(* ================================================================== *)

Lemma length_softmax {num} (N : arith num) arr :
  List.length (softmax N arr) = List.length arr.
Proof.
  unfold softmax. destruct arr as [|x arr]; [reflexivity|].
  cbn [List.length Nat.eqb]. now rewrite !length_map.
Qed.

Lemma engine_attention B inputText :
  exists ss,
    scaledScores B inputText = Ok ss
    /\ attentionWeights B inputText = Ok (map (softmax (ieee B)) ss)
    /\ shape (seqLen inputText) (seqLen inputText) (map (softmax (ieee B)) ss).
Proof.
  destruct (engine_scaledScores B inputText) as (s & _ & Ess & Sss).
  eexists. split; [exact Ess|].
  unfold attentionWeights. rewrite Ess. cbn [bind].
  set (ss := if (0 <? List.length s)%nat then map (map scale) s else []) in *.
  split.
  - destruct ss; reflexivity.
  - destruct Sss as [L F]. split; [now rewrite length_map|].
    apply Forall_forall. intros row H. apply in_map_iff in H.
    destruct H as (row' & <- & H). rewrite length_softmax.
    rewrite Forall_forall in F. auto.
Qed.

(** ** 8.1 Sums and rounding in exact arithmetic *)

Section ExactArithmetic.

Import Exact.
Local Open Scope R_scope.

Lemma sum_nil : sum [] = 0.
Proof. reflexivity. Qed.

Lemma sum_cons x l : sum (x :: l) = x + sum l.
Proof. reflexivity. Qed.

Lemma fold_left_plus l a : fold_left (fun a b => a + b) l a = a + sum l.
Proof.
  revert a. induction l as [|x l IH]; intros a; cbn [fold_left].
  - rewrite sum_nil. lra.
  - rewrite IH, sum_cons. lra.
Qed.

Lemma sum_map_div l s : sum (map (fun x => x / s) l) = sum l / s.
Proof.
  induction l as [|x l IH]; cbn [map].
  - rewrite sum_nil. unfold Rdiv. lra.
  - rewrite !sum_cons, IH. unfold Rdiv. lra.
Qed.

Lemma sum_nonneg l : Forall (fun x => 0 < x) l -> 0 <= sum l.
Proof.
  induction 1 as [|x l Hx Hl IH]; [rewrite sum_nil; lra|rewrite sum_cons; lra].
Qed.

Lemma sum_pos l : l <> [] -> Forall (fun x => 0 < x) l -> 0 < sum l.
Proof.
  intros Hne H. destruct H as [|x l Hx Hl]; [congruence|].
  rewrite sum_cons. pose proof (sum_nonneg l Hl). lra.
Qed.

Lemma le_sum x l : Forall (fun x => 0 < x) l -> In x l -> x <= sum l.
Proof.
  intros H. induction H as [|y l Hy Hl IH]; [easy|].
  rewrite sum_cons. intros [->|Hin].
  - pose proof (sum_nonneg l Hl). lra.
  - specialize (IH Hin). lra.
Qed.

Lemma round_bounds x : x - / 2 < round x <= x + / 2.
Proof.
  unfold round. destruct (base_Int_part (x + / 2)) as [H1 H2]. lra.
Qed.

Lemma round_unit p : 0 <= p <= 1 -> 0 <= round (p * 1000) / 1000 <= 1.
Proof.
  intros Hp. pose proof (round_bounds (p * 1000)) as [H1 H2].
  unfold round in *. set (z := Int_part (p * 1000 + / 2)) in *.
  assert (Hz0 : (0 <= z)%Z).
  { apply Z.lt_succ_r. apply lt_IZR. rewrite succ_IZR. lra. }
  assert (Hz1 : (z <= 1000)%Z).
  { apply Z.lt_succ_r. apply lt_IZR. rewrite succ_IZR. lra. }
  apply IZR_le in Hz0, Hz1. lra.
Qed.

Lemma round_error p : Rabs (round (p * 1000) / 1000 - p) <= / 2000.
Proof.
  pose proof (round_bounds (p * 1000)) as [H1 H2].
  apply Rabs_le. lra.
Qed.

Lemma sum_error (f : R -> R) (d : R) l :
  (forall x, In x l -> Rabs (f x - x) <= d) ->
  Rabs (sum (map f l) - sum l) <= INR (List.length l) * d.
Proof.
  induction l as [|x l IH]; intros H.
  - cbn [map List.length INR]. rewrite sum_nil, Rminus_diag, Rabs_R0. lra.
  - cbn [map List.length]. rewrite S_INR, !sum_cons.
    replace (f x + sum (map f l) - (x + sum l))
      with ((f x - x) + (sum (map f l) - sum l)) by lra.
    eapply Rle_trans; [apply Rabs_triang|].
    specialize (IH (fun y Hy => H y (or_intror Hy))).
    specialize (H x (or_introl eq_refl)). lra.
Qed.

Lemma fold_Rmax_shift c l a :
  fold_left Rmax (map (fun v => v + c) l) (a + c) = fold_left Rmax l a + c.
Proof.
  revert a. induction l as [|x l IH]; intros a; cbn [map fold_left]; [reflexivity|].
  rewrite <- IH. f_equal. unfold Rmax.
  destruct (Rle_dec (a + c) (x + c)), (Rle_dec a x); lra.
Qed.

End ExactArithmetic.

(** ** 8.2 Rows of the attention matrix *)




(** ** 8.3 Shifting a row *)

Lemma softmax_ieee_centred B arr :
  softmax (ieee B) arr =
  if (List.length arr =? 0)%nat then []
  else
    let exp := map (Math_exp B) (centred arr) in
    let sum := fold_left PrimFloat.add exp 0%float in
    map (fun x => (Math_round (x / sum * 1000) / 1000)%float) exp.
Proof.
  unfold softmax, centred. cbn [ieee a_max a_exp a_sub a_add a_lit a_div a_round a_mul].
  rewrite (map_map (fun x => x - Math_max arr)%float (Math_exp B)). reflexivity.
Qed.




(** Whatever the host, an overflowing shift turns a row into [NaN]s. *)
Lemma softmax_shift_overflow (B : builtins) :
  ecma262 B ->
  softmax (ieee B) [1e308; -1e308]%float = [1; 0]%float
  /\ softmax (ieee B) (shift 1e308 [1e308; -1e308]%float) = [nan; nan]%float.
Proof.
  intros E. rewrite !softmax_ieee_centred. split.
  - replace (centred [1e308; -1e308]%float) with [0; neg_infinity]%float
      by (vm_compute; reflexivity).
    cbn [List.length Nat.eqb map]. rewrite (exp_zero B E), (exp_neg_infinity B E).
    vm_compute. reflexivity.
  - replace (centred (shift 1e308 [1e308; -1e308]%float)) with [nan; neg_infinity]%float
      by (vm_compute; reflexivity).
    cbn [List.length Nat.eqb map]. rewrite (exp_nan B E), (exp_neg_infinity B E).
    vm_compute. reflexivity.
Qed.

(* ================================================================== *)
(** * 9. The order of binary64 values                                  *)
(* ================================================================== *)

(** The story sorts with the comparator [b.weight - a.weight].  That the
    sign of a difference is the order of its operands is a fact of IEEE-754
    arithmetic (no difference of two distinct values rounds to zero); it is
    derived here from the specification of the primitive floats. *)

Section FloatOrder.

Local Open Scope Z_scope.

Lemma digits2_size m : digits2_pos m = Pos.size m.
Proof. induction m; cbn; congruence. Qed.

Lemma digits_bounds m :
  2 ^ (Zpos (digits2_pos m) - 1) <= Zpos m < 2 ^ Zpos (digits2_pos m).
Proof.
  rewrite digits2_size. split.
  - pose proof (Pos.size_le m) as H.
    assert (H' : 2 ^ Zpos (Pos.size m) <= 2 * Zpos m).
    { change 2 with (Zpos 2) at 1. rewrite <- Pos2Z.inj_pow. apply Pos2Z.pos_le_pos in H.
      exact H. }
    replace (Zpos (Pos.size m)) with (Z.succ (Zpos (Pos.size m) - 1)) in H' by lia.
    rewrite Z.pow_succ_r in H' by lia. lia.
  - pose proof (Pos.size_gt m) as H.
    change 2 with (Zpos 2). rewrite <- Pos2Z.inj_pow. now apply Pos2Z.pos_lt_pos.
Qed.

Lemma valid_finite s m e :
  valid_binary (S754_finite s m e) = true ->
  -1074 <= e <= 971 /\ Zpos (digits2_pos m) <= 53 /\ (-1074 < e -> Zpos (digits2_pos m) = 53).
Proof.
  cbn. unfold SpecFloat.bounded, SpecFloat.canonical_mantissa, SpecFloat.fexp, SpecFloat.emin, prec, emax.
  intros H. apply andb_prop in H. destruct H as [H1 H2].
  apply Z.eqb_eq in H1. apply Z.leb_le in H2. lia.
Qed.

Lemma pow2_pos n : 0 < 2 ^ n \/ n < 0.
Proof. destruct (Z.lt_ge_cases n 0); [now right|left; now apply Z.pow_pos_nonneg]. Qed.

Lemma finite_key_bounds s m e :
  valid_binary (S754_finite s m e) = true ->
  0 < Zpos m * 2 ^ (e - emin) < huge.
Proof.
  intros H. apply valid_finite in H. destruct H as (He & Hd & _).
  pose proof (digits_bounds m) as [_ Hm].
  assert (Hm' : Zpos m < 2 ^ 53).
  { eapply Z.lt_le_trans; [exact Hm|]. apply Z.pow_le_mono_r; lia. }
  unfold emin, SpecFloat.emin, prec, emax.
  assert (Hp : 0 < 2 ^ (e - (3 - 1024 - 53))) by (apply Z.pow_pos_nonneg; lia).
  assert (Hq : 2 ^ (e - (3 - 1024 - 53)) < 2 ^ 2047) by (apply Z.pow_lt_mono_r; lia).
  assert (Hh : huge = 2 ^ 53 * 2 ^ 2047).
  { unfold huge. rewrite <- Z.pow_add_r by lia. reflexivity. }
  rewrite Hh. clear Hh.
  generalize dependent (2 ^ (e - (3 - 1024 - 53))). intros P HP HP'.
  generalize dependent (2 ^ 2047). intros T HT.
  generalize dependent (2 ^ 53). intros U HU.
  split; [lia|]. nia.
Qed.

Lemma canonical_order m1 e1 m2 e2 s1 s2 :
  valid_binary (S754_finite s1 m1 e1) = true ->
  valid_binary (S754_finite s2 m2 e2) = true ->
  e1 < e2 -> Zpos m1 * 2 ^ (e1 - emin) < Zpos m2 * 2 ^ (e2 - emin).
Proof.
  intros H1 H2 He. apply valid_finite in H1, H2.
  destruct H1 as (He1 & Hd1 & _), H2 as (He2 & _ & Hd2).
  specialize (Hd2 ltac:(lia)).
  pose proof (digits_bounds m1) as [_ Hm1]. pose proof (digits_bounds m2) as [Hm2 _].
  rewrite Hd2 in Hm2. change (53 - 1) with 52 in Hm2.
  assert (Hm1' : Zpos m1 < 2 * 2 ^ 52).
  { rewrite <- Z.pow_succ_r by lia.
    eapply Z.lt_le_trans; [exact Hm1|]. apply Z.pow_le_mono_r; lia. }
  unfold emin, SpecFloat.emin, prec, emax.
  assert (HP : 0 < 2 ^ (e1 - (3 - 1024 - 53))) by (apply Z.pow_pos_nonneg; lia).
  assert (HQ : 2 * 2 ^ (e1 - (3 - 1024 - 53)) <= 2 ^ (e2 - (3 - 1024 - 53))).
  { rewrite <- Z.pow_succ_r by lia. apply Z.pow_le_mono_r; lia. }
  clear Hm1.
  generalize dependent (2 ^ (e1 - (3 - 1024 - 53))). intros P HP HQ.
  generalize dependent (2 ^ (e2 - (3 - 1024 - 53))). intros Q HQ.
  generalize dependent (2 ^ 52). intros U HU1 HU2.
  nia.
Qed.

Lemma cmp_lt a b : a < b -> Some Lt = Some (a ?= b).
Proof. intros H. apply Z.compare_lt_iff in H. now rewrite H. Qed.

Lemma cmp_gt a b : b < a -> Some Gt = Some (a ?= b).
Proof. intros H. apply Z.compare_gt_iff in H. now rewrite H. Qed.

Lemma cmp_eq a b : a = b -> Some Eq = Some (a ?= b).
Proof. intros H. apply Z.compare_eq_iff in H. now rewrite H. Qed.

Lemma compare_key x y :
  valid_binary x = true -> valid_binary y = true ->
  x <> S754_nan -> y <> S754_nan ->
  SFcompare x y = Some (key x ?= key y).
Proof.
  intros Vx Vy Nx Ny.
  assert (Hh : 0 < huge) by (unfold huge; now apply Z.pow_pos_nonneg).
  destruct x as [sx|sx| |sx mx ex], y as [sy|sy| |sy my ey]; try congruence;
    try pose proof (finite_key_bounds _ _ _ Vx) as Bx;
    try pose proof (finite_key_bounds _ _ _ Vy) as By;
    cbn [SFcompare key]; generalize dependent huge; intros h Hh; intros.
  - now apply cmp_eq.
  - destruct sy; cbn [cond_Zopp]; [apply cmp_gt|apply cmp_lt]; lia.
  - destruct sy; cbn [cond_Zopp]; [apply cmp_gt|apply cmp_lt]; lia.
  - destruct sx; cbn [cond_Zopp]; [apply cmp_lt|apply cmp_gt]; lia.
  - destruct sx, sy; cbn [cond_Zopp];
      [apply cmp_eq|apply cmp_lt|apply cmp_gt|apply cmp_eq]; lia.
  - destruct sx; cbn [cond_Zopp]; [apply cmp_lt|apply cmp_gt]; destruct sy; cbn [cond_Zopp]; lia.
  - destruct sx; cbn [cond_Zopp]; [apply cmp_lt|apply cmp_gt]; lia.
  - destruct sy; cbn [cond_Zopp]; [apply cmp_gt|apply cmp_lt]; destruct sx; cbn [cond_Zopp]; lia.
  - destruct sx, sy; cbn [cond_Zopp].
    + destruct (Z.compare_spec ex ey) as [->|Hlt|Hgt].
      * change (Pos.compare_cont Eq mx my) with (Pos.compare mx my).
        destruct (Pos.compare_spec mx my) as [->|H|H]; cbn [CompOpp].
        -- now apply cmp_eq.
        -- apply cmp_gt. apply Pos2Z.pos_lt_pos in H.
           generalize dependent (2 ^ (ey - emin)). intros; nia.
        -- apply cmp_lt. apply Pos2Z.pos_lt_pos in H.
           generalize dependent (2 ^ (ey - emin)). intros; nia.
      * apply cmp_gt.
        pose proof (canonical_order _ _ _ _ _ _ Vx Vy Hlt). lia.
      * apply cmp_lt.
        pose proof (canonical_order _ _ _ _ _ _ Vy Vx ltac:(lia)). lia.
    + apply cmp_lt. lia.
    + apply cmp_gt. lia.
    + destruct (Z.compare_spec ex ey) as [->|Hlt|Hgt].
      * change (Pos.compare_cont Eq mx my) with (Pos.compare mx my).
        destruct (Pos.compare_spec mx my) as [->|H|H].
        -- now apply cmp_eq.
        -- apply cmp_lt. apply Pos2Z.pos_lt_pos in H.
           generalize dependent (2 ^ (ey - emin)). intros; nia.
        -- apply cmp_gt. apply Pos2Z.pos_lt_pos in H.
           generalize dependent (2 ^ (ey - emin)). intros; nia.
      * apply cmp_lt.
        pose proof (canonical_order _ _ _ _ _ _ Vx Vy Hlt). lia.
      * apply cmp_gt.
        pose proof (canonical_order _ _ _ _ _ _ Vy Vx ltac:(lia)). lia.
Qed.

(** ** The sign of a difference *)

Lemma shr_m_of_loc m l : shr_m (shr_record_of_loc m l) = m.
Proof. destruct l as [|[]]; reflexivity. Qed.

Lemma shr_1_lower k r :
  0 <= k -> 2 * 2 ^ k <= shr_m r -> 2 ^ k <= shr_m (shr_1 r).
Proof.
  intros Hk H. assert (Hp : 0 < 2 ^ k) by now apply Z.pow_pos_nonneg.
  destruct r as [m rr ss]. cbn [shr_m] in *.
  generalize dependent (2 ^ k). intros P H HP.
  destruct m as [|[p|p|]|[p|p|]]; cbn [shr_1 shr_m]; lia.
Qed.

Lemma iter_shr_1_lower p : forall k r,
  0 <= k -> 2 ^ (k + Zpos p) <= shr_m r -> 2 ^ k <= shr_m (SpecFloat.iter_pos shr_1 p r).
Proof.
  induction p as [p IH|p IH|]; intros k r Hk H; cbn [SpecFloat.iter_pos].
  - apply IH; [assumption|]. apply IH; [lia|].
    apply shr_1_lower; [lia|]. rewrite <- Z.pow_succ_r by lia.
    replace (Z.succ (k + Zpos p + Zpos p)) with (k + Zpos p~1) by lia. exact H.
  - apply IH; [assumption|]. apply IH; [lia|].
    replace (k + Zpos p + Zpos p) with (k + Zpos p~0) by lia. exact H.
  - apply shr_1_lower; [assumption|]. rewrite <- Z.pow_succ_r by lia.
    replace (Z.succ k) with (k + 1) by lia. exact H.
Qed.

Lemma shr_fexp_pos m e l mrs e' :
  0 < m -> -1074 <= e ->
  shr_fexp prec emax m e l = (mrs, e') -> 0 < shr_m mrs /\ -1074 <= e'.
Proof.
  intros Hm He. unfold shr_fexp, shr, SpecFloat.fexp, SpecFloat.emin, prec, emax.
  destruct m as [|pm|pm]; try lia. cbn [Zdigits2].
  pose proof (digits_bounds pm) as [Hlo _].
  set (d := Zpos (digits2_pos pm)) in *.
  destruct (Z.max (d + e - 53) (3 - 1024 - 53) - e) as [|p|p] eqn:En; intros E;
    injection E as <- <-; rewrite ?shr_m_of_loc; try lia.
  split; [|lia].
  assert (Hp : Zpos p = d - 53) by lia.
  assert (H1 : 2 ^ 0 <= shr_m (SpecFloat.iter_pos shr_1 p (shr_record_of_loc (Zpos pm) l))).
  { apply iter_shr_1_lower; [lia|]. rewrite shr_m_of_loc.
    eapply Z.le_trans; [|exact Hlo]. apply Z.pow_le_mono_r; lia. }
  change (2 ^ 0) with 1 in H1. lia.
Qed.

Lemma round_nearest_even_ge m l : m <= round_nearest_even m l.
Proof. destruct l as [|[]]; cbn; try lia. destruct (Z.even m); lia. Qed.

Lemma binary_round_aux_sign sx m e l :
  0 < m -> -1074 <= e ->
  binary_round_aux prec emax sx m e l = S754_infinity sx
  \/ exists m' e', binary_round_aux prec emax sx m e l = S754_finite sx m' e'.
Proof.
  intros Hm He. unfold binary_round_aux.
  destruct (shr_fexp prec emax m e l) as [mrs' e'] eqn:E1.
  destruct (shr_fexp_pos _ _ _ _ _ Hm He E1) as [Hm1 He1].
  destruct (shr_fexp prec emax (round_nearest_even (shr_m mrs') (loc_of_shr_record mrs')) e' loc_Exact)
    as [mrs'' e''] eqn:E2.
  pose proof (round_nearest_even_ge (shr_m mrs') (loc_of_shr_record mrs')) as Hge.
  assert (Hr : 0 < round_nearest_even (shr_m mrs') (loc_of_shr_record mrs')) by lia.
  destruct (shr_fexp_pos _ _ _ _ _ Hr He1 E2) as [Hm2 He2].
  destruct (shr_m mrs'') as [|p|p]; try lia.
  destruct (e'' <=? emax - prec); eauto.
Qed.

Lemma pos_iter_xO m d : Zpos (Pos.iter xO m d) = Zpos m * 2 ^ Zpos d.
Proof.
  induction d as [|d IH] using Pos.peano_ind.
  - cbn. lia.
  - rewrite Pos.iter_succ, Pos2Z.inj_xO, IH, Pos2Z.inj_succ, Z.pow_succ_r by lia. lia.
Qed.

Lemma shl_align_value m e e' :
  e' <= e -> Zpos (fst (shl_align m e e')) = Zpos m * 2 ^ (e - e')
             /\ snd (shl_align m e e') = e'.
Proof.
  intros H. unfold shl_align.
  destruct (e' - e) as [|d|d] eqn:E; try lia; cbn [fst snd].
  - replace (e - e') with 0 by lia. split; lia.
  - rewrite pos_iter_xO. replace (e - e') with (Zpos d) by lia. auto.
Qed.

Lemma shl_align_exponent m e e' mz ez :
  shl_align m e e' = (mz, ez) -> ez = e \/ ez = e'.
Proof.
  unfold shl_align. destruct (e' - e); intros E; injection E as _ <-; auto.
Qed.

Lemma binary_round_sign sx m e :
  -1074 <= e ->
  binary_round prec emax sx m e = S754_infinity sx
  \/ exists m' e', binary_round prec emax sx m e = S754_finite sx m' e'.
Proof.
  intros He. unfold binary_round.
  assert (Hf : -1074 <= SpecFloat.fexp prec emax (Zpos (digits2_pos m) + e)).
  { unfold SpecFloat.fexp, SpecFloat.emin, prec, emax. lia. }
  destruct (shl_align m e (SpecFloat.fexp prec emax (Zpos (digits2_pos m) + e))) as [mz ez] eqn:E.
  apply binary_round_aux_sign; [lia|].
  apply shl_align_exponent in E. lia.
Qed.

Lemma binary_normalize_sign D e :
  -1074 <= e -> is_positive (binary_normalize prec emax D e false) = (0 <? D).
Proof.
  intros He. destruct D as [|p|p]; cbn [binary_normalize].
  - reflexivity.
  - destruct (binary_round_sign false p e He) as [->|(m' & e' & ->)]; reflexivity.
  - destruct (binary_round_sign true p e He) as [->|(m' & e' & ->)]; reflexivity.
Qed.

Lemma sub_positive x y :
  valid_binary x = true -> valid_binary y = true ->
  x <> S754_nan -> y <> S754_nan ->
  is_positive (SF64sub x y) = (key y <? key x).
Proof.
  intros Vx Vy Nx Ny.
  assert (Hh : 0 < huge) by (unfold huge; now apply Z.pow_pos_nonneg).
  destruct x as [sx|sx| |sx mx ex], y as [sy|sy| |sy my ey]; try congruence;
    try pose proof (finite_key_bounds _ _ _ Vx) as Bx;
    try pose proof (finite_key_bounds _ _ _ Vy) as By;
    unfold SF64sub; cbn [SFsub key].
  - destruct sx, sy; reflexivity.
  - generalize dependent huge; intros h Hh.
    destruct sy; cbn [negb cond_Zopp is_positive SFltb SFcompare]; symmetry;
      [apply Z.ltb_lt|apply Z.ltb_ge]; lia.
  - destruct sy; cbn [negb cond_Zopp is_positive SFltb SFcompare]; symmetry;
      [apply Z.ltb_lt|apply Z.ltb_ge]; lia.
  - generalize dependent huge; intros h Hh.
    destruct sx; cbn [negb cond_Zopp is_positive SFltb SFcompare]; symmetry;
      [apply Z.ltb_ge|apply Z.ltb_lt]; lia.
  - generalize dependent huge; intros h Hh.
    destruct sx, sy; cbn [negb cond_Zopp is_positive SFltb SFcompare]; symmetry;
      try (apply Z.ltb_ge; lia); apply Z.ltb_lt; lia.
  - generalize dependent huge; intros h Hh Bx.
    destruct sx; cbn [negb cond_Zopp is_positive SFltb SFcompare]; symmetry;
      [apply Z.ltb_ge|apply Z.ltb_lt]; destruct sy; cbn [cond_Zopp]; lia.
  - destruct sx; cbn [negb cond_Zopp is_positive SFltb SFcompare]; symmetry;
      [apply Z.ltb_ge|apply Z.ltb_lt]; lia.
  - generalize dependent huge; intros h Hh By.
    destruct sy; cbn [negb cond_Zopp is_positive SFltb SFcompare]; symmetry;
      [apply Z.ltb_lt|apply Z.ltb_ge]; destruct sx; cbn [cond_Zopp]; lia.
  - pose proof (valid_finite _ _ _ Vx) as ((Hex & _) & _).
    pose proof (valid_finite _ _ _ Vy) as ((Hey & _) & _).
    rewrite binary_normalize_sign by lia.
    destruct (shl_align_value mx ex (Z.min ex ey) ltac:(lia)) as [-> _].
    destruct (shl_align_value my ey (Z.min ex ey) ltac:(lia)) as [-> _].
    unfold emin, SpecFloat.emin, prec, emax in *.
    set (ez := Z.min ex ey) in *.
    assert (Ex : 2 ^ (ex - (3 - 1024 - 53)) = 2 ^ (ex - ez) * 2 ^ (ez - (3 - 1024 - 53))).
    { rewrite <- Z.pow_add_r by lia. f_equal. lia. }
    assert (Ey : 2 ^ (ey - (3 - 1024 - 53)) = 2 ^ (ey - ez) * 2 ^ (ez - (3 - 1024 - 53))).
    { rewrite <- Z.pow_add_r by lia. f_equal. lia. }
    rewrite Ex, Ey.
    assert (HP : 0 < 2 ^ (ez - (3 - 1024 - 53))) by (apply Z.pow_pos_nonneg; lia).
    assert (Hx : 0 < 2 ^ (ex - ez)) by (apply Z.pow_pos_nonneg; lia).
    assert (Hy : 0 < 2 ^ (ey - ez)) by (apply Z.pow_pos_nonneg; lia).
    clear Ex Ey Bx By.
    generalize dependent (2 ^ (ez - (3 - 1024 - 53))). intros P HP.
    generalize dependent (2 ^ (ex - ez)). intros X HX.
    generalize dependent (2 ^ (ey - ez)). intros Y HY.
    destruct (Z.ltb_spec 0 (cond_Zopp sx (Zpos mx * X) - cond_Zopp sy (Zpos my * Y)));
      symmetry; [apply Z.ltb_lt|apply Z.ltb_ge];
      destruct sx, sy; cbn [cond_Zopp] in *; nia.
Qed.

(** ** Primitive floats *)

Lemma is_nan_spec a : is_nan a = false <-> Prim2SF a <> S754_nan.
Proof.
  unfold is_nan. rewrite FloatAxioms.eqb_spec. unfold SFeqb. split.
  - intros H E. rewrite E in H. discriminate.
  - intros H. rewrite compare_key by (auto using Prim2SF_valid).
    now rewrite Z.compare_refl.
Qed.

Lemma ltb_fkey a b :
  is_nan a = false -> is_nan b = false -> (a <? b)%float = (fkey a <? fkey b).
Proof.
  intros Ha Hb. apply is_nan_spec in Ha, Hb.
  rewrite FloatAxioms.ltb_spec. unfold SFltb, fkey, Z.ltb.
  rewrite compare_key by (auto using Prim2SF_valid). reflexivity.
Qed.

Lemma eqb_fkey a b :
  is_nan a = false -> is_nan b = false -> (a =? b)%float = (fkey a =? fkey b).
Proof.
  intros Ha Hb. apply is_nan_spec in Ha, Hb.
  rewrite FloatAxioms.eqb_spec. unfold SFeqb, fkey.
  rewrite compare_key by (auto using Prim2SF_valid).
  destruct (Z.compare_spec (key (Prim2SF a)) (key (Prim2SF b)));
    destruct (Z.eqb_spec (key (Prim2SF a)) (key (Prim2SF b))); try reflexivity; lia.
Qed.

Lemma sub_positive_fkey a b :
  is_nan a = false -> is_nan b = false -> (0 <? b - a)%float = (fkey a <? fkey b).
Proof.
  intros Ha Hb. apply is_nan_spec in Ha, Hb.
  rewrite FloatAxioms.ltb_spec, FloatAxioms.sub_spec.
  change (Prim2SF 0) with (S754_zero false).
  apply (sub_positive (Prim2SF b) (Prim2SF a)); auto using Prim2SF_valid.
Qed.

End FloatOrder.

(* ================================================================== *)
(** * 10. The story of a row                                           *)
(* ================================================================== *)

(** ** 10.1 The entries that are ranked *)

(** [weight || 0] is never [NaN]. *)
Lemma weight_or_zero_not_nan w : is_nan (weight_or_zero w) = false.
Proof.
  unfold weight_or_zero, truthy_num.
  destruct (is_nan w) eqn:E; cbn; [reflexivity|].
  destruct (w =? 0)%float; cbn; [reflexivity|exact E].
Qed.

(** ** 10.2 [Array.prototype.sort] with the comparator of the story *)

(** The comparator is consistent on weights that are not [NaN]: the sort
    returns a permutation, in descending order of weight, and it is stable. *)
Section Sorting.
Variable good : item -> Prop.
Hypothesis good_not_nan : forall a, good a -> is_nan (weight a) = false.

Lemma sort_insert_perm x l : Permutation (sort_insert by_weight x l) (x :: l).
Proof.
  induction l as [|y l IH]; cbn [sort_insert]; [reflexivity|].
  destruct (0 <? by_weight x y)%float; [|reflexivity].
  rewrite IH. apply perm_swap.
Qed.

Lemma Array_sort_perm l : Permutation (Array_sort by_weight l) l.
Proof.
  induction l as [|x l IH]; [reflexivity|].
  unfold Array_sort in *. cbn [fold_right]. rewrite sort_insert_perm. now constructor.
Qed.

Lemma sort_insert_sorted x l :
  good x -> Forall good l ->
  Forall (fun y => idx x < idx y) l ->
  StronglySorted ranks_before_key l ->
  StronglySorted ranks_before_key (sort_insert by_weight x l).
Proof.
  intros Gx Gl Hidx Hs. induction Hs as [|y l Hs IH Hy]; cbn [sort_insert].
  - repeat constructor.
  - inversion Gl as [|? ? Gy Gl']; subst. inversion Hidx as [|? ? Hxy Hidx']; subst.
    unfold by_weight at 1.
    rewrite sub_positive_fkey by auto.
    fold (wkey x). fold (wkey y).
    destruct (Z.ltb_spec (wkey x) (wkey y)) as [Hlt|Hge].
    + constructor; [now apply IH|].
      eapply Permutation_Forall; [symmetry; apply sort_insert_perm|].
      constructor; [now left|exact Hy].
    + constructor; [now constructor|].
      constructor.
      * unfold ranks_before_key. lia.
      * rewrite Forall_forall in *. intros z Hz.
        specialize (Hy z Hz). specialize (Hidx' z Hz).
        unfold ranks_before_key in *. lia.
Qed.

Lemma Array_sort_sorted l :
  Forall good l -> StronglySorted (fun a b => idx a < idx b) l ->
  StronglySorted ranks_before_key (Array_sort by_weight l).
Proof.
  intros G H. induction H as [|x l Hs IH Hx]; [constructor|].
  inversion G as [|? ? Gx Gl]; subst.
  change (Array_sort by_weight (x :: l))
    with (sort_insert by_weight x (Array_sort by_weight l)).
  apply sort_insert_sorted; auto.
  - eapply Permutation_Forall; [symmetry; apply Array_sort_perm|exact Gl].
  - eapply Permutation_Forall; [symmetry; apply Array_sort_perm|exact Hx].
Qed.

Lemma ranks_before_of_key a b :
  good a -> good b -> ranks_before_key a b -> ranks_before a b.
Proof.
  intros Ga Gb. unfold ranks_before_key, ranks_before, wkey.
  rewrite ltb_fkey, eqb_fkey by auto.
  intros [H|[H1 H2]]; [left; now apply Z.ltb_lt|right; split; [now apply Z.eqb_eq|assumption]].
Qed.

End Sorting.

(** ** 10.3 [sortedAttention] *)

Lemma jsstring_eqb_spec a b : jsstring_eqb a b = true <-> a = b.
Proof.
  unfold jsstring_eqb. destruct (list_eq_dec N.eq_dec a b); split; congruence.
Qed.

Lemma token_valid allTokens i :
  negb (jsstring_eqb (token_or_unknown allTokens i) unknown) = valid_index allTokens i.
Proof.
  unfold token_or_unknown, valid_index.
  destruct (nth_error allTokens i) as [t|].
  - destruct (0 <? List.length t)%nat; [reflexivity|].
    cbn. replace (jsstring_eqb unknown unknown) with true; [reflexivity|].
    symmetry. now apply jsstring_eqb_spec.
  - replace (jsstring_eqb unknown unknown) with true; [reflexivity|].
    symmetry. now apply jsstring_eqb_spec.
Qed.

Lemma token_of_valid allTokens i :
  valid_index allTokens i = true -> token_or_unknown allTokens i = nth i allTokens [].
Proof.
  unfold token_or_unknown, valid_index.
  destruct (nth_error allTokens i) as [t|] eqn:E; [|discriminate].
  intros H. apply andb_prop in H. destruct H as [-> _].
  symmetry. now apply nth_error_nth.
Qed.

Lemma entries_valid allTokens attentionRow :
  entries allTokens attentionRow
  = map (entry_at allTokens attentionRow) (valid_indices allTokens attentionRow).
Proof.
  unfold entries, mapi, valid_indices.
  rewrite (mapi_from_seq _ nan), filter_map_comm. cbn [token].
  rewrite (filter_ext _ (valid_index allTokens)) by (intros i; apply token_valid).
  apply map_ext_in. intros i Hi. apply filter_In in Hi. destruct Hi as [_ Hv].
  unfold entry_at. rewrite Nat.sub_0_r. now rewrite token_of_valid.
Qed.

Lemma entries_good allTokens attentionRow : Forall good_item (entries allTokens attentionRow).
Proof.
  rewrite entries_valid. apply Forall_forall. intros a H. apply in_map_iff in H.
  destruct H as (i & <- & _). apply weight_or_zero_not_nan.
Qed.

Lemma entries_by_index allTokens attentionRow :
  StronglySorted (fun a b => idx a < idx b) (entries allTokens attentionRow).
Proof.
  rewrite entries_valid. apply StronglySorted_map. cbn [entry_at idx].
  apply StronglySorted_filter, StronglySorted_seq.
Qed.

Lemma sortedAttention_perm allTokens attentionRow :
  Permutation (sortedAttention allTokens attentionRow)
              (map (entry_at allTokens attentionRow) (valid_indices allTokens attentionRow)).
Proof.
  rewrite <- entries_valid. apply Array_sort_perm.
Qed.

Lemma sortedAttention_sorted allTokens attentionRow :
  StronglySorted ranks_before (sortedAttention allTokens attentionRow).
Proof.
  apply (StronglySorted_impl ranks_before_key ranks_before good_item).
  - eapply Permutation_Forall; [symmetry; apply Array_sort_perm|apply entries_good].
  - intros a b Ha Hb. apply (ranks_before_of_key good_item); auto.
  - apply (Array_sort_sorted good_item); auto using entries_good, entries_by_index.
Qed.

Lemma length_sortedAttention allTokens attentionRow :
  List.length (sortedAttention allTokens attentionRow)
  = List.length (valid_indices allTokens attentionRow).
Proof.
  rewrite (Permutation_length (sortedAttention_perm _ _)). apply length_map.
Qed.

Lemma valid_indices_bound allTokens attentionRow :
  List.length (valid_indices allTokens attentionRow) <= List.length attentionRow
  /\ (allTokens = [] -> valid_indices allTokens attentionRow = []).
Proof.
  unfold valid_indices. split.
  - etransitivity; [apply filter_length_le|]. now rewrite length_seq.
  - intros ->. induction (seq 0 (List.length attentionRow)) as [|i l IH]; [reflexivity|].
    cbn [filter]. unfold valid_index at 1. now destruct i.
Qed.

Lemma story_not_placeholder_1 B word t0 t1 :
  focused_on_itself B word t0 t1 <> placeholder word.
Proof.
  unfold focused_on_itself, placeholder. intros H.
  apply app_inv_head in H. apply app_inv_head in H. apply app_inv_head in H.
  discriminate H.
Qed.

Lemma story_not_placeholder_2 B word t0 t1 :
  most_interested_in B word t0 t1 <> placeholder word.
Proof.
  unfold most_interested_in, placeholder. intros H.
  apply app_inv_head in H. apply app_inv_head in H. apply app_inv_head in H.
  discriminate H.
Qed.

(** ** 10.4 The sentence *)



(* ================================================================== *)
(** * 11. More of binary64                                             *)
(* ================================================================== *)

(** Facts of IEEE-754 arithmetic that the rows of [softmax] and the view
    rest on: what is [NaN], what is finite, [x - x], and the order that
    [Math.max] and [Math.min] follow. *)

Lemma is_nan_true a : is_nan a = true -> a = nan.
Proof.
  intros H. apply Prim2SF_inj. change (Prim2SF nan) with S754_nan.
  destruct (Prim2SF a) eqn:E; try reflexivity;
    (assert (H' : is_nan a = false) by (apply is_nan_spec; rewrite E; discriminate);
     congruence).
Qed.

Lemma is_infinity_spec a :
  is_infinity a = true <-> exists s, Prim2SF a = S754_infinity s.
Proof.
  unfold is_infinity. rewrite FloatAxioms.eqb_spec, FloatAxioms.abs_spec.
  change (Prim2SF infinity) with (S754_infinity false).
  destruct (Prim2SF a) as [s|s| |s m e]; cbn; split;
    try discriminate; try (intros [s' H]; discriminate); eauto.
Qed.

(** A finite float is a zero or a finite nonzero number. *)
Lemma is_finite_spec a :
  is_finite a = true <->
  (exists s, Prim2SF a = S754_zero s) \/ (exists s m e, Prim2SF a = S754_finite s m e).
Proof.
  unfold is_finite. rewrite negb_true_iff, orb_false_iff, is_nan_spec.
  split.
  - intros [Hn Hi]. destruct (Prim2SF a) as [s|s| |s m e] eqn:E; eauto.
    + assert (is_infinity a = true) by (apply is_infinity_spec; eauto). congruence.
    + congruence.
  - intros [[s E]|(s & m & e & E)]; rewrite E; (split; [discriminate|]);
      destruct (is_infinity a) eqn:H; try reflexivity;
      apply is_infinity_spec in H; destruct H as [s' H]; congruence.
Qed.

Lemma sub_diag_finite x : is_finite x = true -> (x - x)%float = 0%float.
Proof.
  intros H. apply is_finite_spec in H. apply Prim2SF_inj.
  rewrite FloatAxioms.sub_spec. change (Prim2SF 0) with (S754_zero false).
  destruct H as [[s E]|(s & m & e & E)]; rewrite E.
  - now destruct s.
  - unfold SF64sub, SFsub. cbn zeta. now rewrite Z.sub_diag.
Qed.

Lemma sub_diag_not_finite x : is_finite x = false -> (x - x)%float = nan.
Proof.
  intros H. apply Prim2SF_inj.
  rewrite FloatAxioms.sub_spec. change (Prim2SF nan) with S754_nan.
  destruct (Prim2SF x) as [s|s| |s m e] eqn:E.
  - assert (is_finite x = true) by (apply is_finite_spec; eauto). congruence.
  - now destruct s.
  - reflexivity.
  - assert (is_finite x = true) by (apply is_finite_spec; right; eauto). congruence.
Qed.

Lemma nan_sub_r x : (x - nan)%float = nan.
Proof.
  apply Prim2SF_inj. rewrite FloatAxioms.sub_spec.
  change (Prim2SF nan) with S754_nan. now destruct (Prim2SF x).
Qed.

Lemma ltb_neg_infinity x : (x <? neg_infinity)%float = false.
Proof.
  rewrite FloatAxioms.ltb_spec. change (Prim2SF neg_infinity) with (S754_infinity true).
  now destruct (Prim2SF x) as [[|]|[|]| |[|] m e].
Qed.

Lemma ltb_irrefl x : (x <? x)%float = false.
Proof.
  destruct (is_nan x) eqn:E.
  - apply is_nan_true in E. subst x. reflexivity.
  - rewrite ltb_fkey by assumption. apply Z.ltb_irrefl.
Qed.

Lemma leb_fkey a b :
  is_nan a = false -> is_nan b = false -> (a <=? b)%float = (fkey a <=? fkey b)%Z.
Proof.
  intros Ha Hb. apply is_nan_spec in Ha, Hb.
  rewrite FloatAxioms.leb_spec. unfold SFleb, fkey, Z.leb.
  rewrite compare_key by (auto using Prim2SF_valid).
  now destruct (key (Prim2SF a) ?= key (Prim2SF b))%Z.
Qed.

(** A sum with a finite term is [NaN] only if the other term is. *)
Lemma add_not_nan a b :
  is_nan a = false -> is_finite b = true -> is_nan (a + b)%float = false.
Proof.
  intros Ha Hb. apply is_nan_spec. apply is_nan_spec in Ha. apply is_finite_spec in Hb.
  rewrite FloatAxioms.add_spec.
  pose proof (Prim2SF_valid a) as Va. pose proof (Prim2SF_valid b) as Vb.
  destruct (Prim2SF a) as [sa|sa| |sa ma ea]; [| | congruence |];
    destruct Hb as [[sb Eb]|(sb & mb & eb & Eb)]; rewrite Eb in *;
    try (cbn; discriminate).
  - destruct sa, sb; cbn; discriminate.
  - apply valid_finite in Va, Vb.
    unfold SF64add, SFadd. cbv zeta.
    match goal with |- binary_normalize _ _ ?D ?e _ <> _ => destruct D as [|p|p] eqn:ED end;
      cbn [binary_normalize]; [discriminate| |];
      match goal with |- binary_round _ _ ?s ?m ?e <> _ =>
        destruct (binary_round_sign s m e ltac:(lia)) as [E|(m' & e' & E)] end;
      rewrite E; discriminate.
Qed.

(** [Math.max] of one argument is the argument. *)
Lemma max2_neg_infinity x : max2 neg_infinity x = x.
Proof.
  unfold max2. change (is_nan neg_infinity) with false. cbn match.
  destruct (is_nan x); [reflexivity|].
  rewrite ltb_neg_infinity. destruct (neg_infinity <? x)%float; reflexivity.
Qed.

Lemma max2_diag x : max2 x x = x.
Proof.
  unfold max2. destruct (is_nan x); [reflexivity|].
  rewrite ltb_irrefl. now destruct (get_sign x).
Qed.

Lemma max2_nan_r x : max2 x nan = nan.
Proof.
  unfold max2. destruct (is_nan x) eqn:E; [now apply is_nan_true|reflexivity].
Qed.

Lemma Math_max_repeat x n : Math_max (repeat x (S n)) = x.
Proof.
  unfold Math_max. cbn [repeat fold_left]. rewrite max2_neg_infinity.
  induction n as [|n IH]; [reflexivity|].
  cbn [repeat fold_left]. now rewrite max2_diag.
Qed.

Lemma fold_max2_nan l : fold_left max2 l nan = nan.
Proof. induction l as [|x l IH]; [reflexivity|]. exact IH. Qed.

Lemma Math_max_nan arr : In nan arr -> Math_max arr = nan.
Proof.
  unfold Math_max. generalize neg_infinity.
  induction arr as [|x arr IH]; intros a H; [contradiction|].
  cbn [fold_left]. destruct H as [->|H].
  - rewrite max2_nan_r. apply fold_max2_nan.
  - now apply IH.
Qed.

Lemma fold_add_nan l : fold_left PrimFloat.add l nan = nan.
Proof. induction l as [|x l IH]; [reflexivity|]. cbn [fold_left]. now rewrite nan_add_l. Qed.

Section MaxMin.

Variables a b : float.
Hypothesis Ha : is_nan a = false.
Hypothesis Hb : is_nan b = false.

(** On Numbers that are not [NaN], [Math.max] and [Math.min] are the
    maximum and the minimum of the order. *)
Lemma max2_fkey : is_nan (max2 a b) = false /\ fkey (max2 a b) = Z.max (fkey a) (fkey b).
Proof.
  unfold max2. rewrite Ha, Hb, !ltb_fkey by assumption.
  destruct (Z.ltb_spec (fkey a) (fkey b)); [split; [assumption|lia]|].
  destruct (Z.ltb_spec (fkey b) (fkey a)); [split; [assumption|lia]|].
  destruct (get_sign a); split; try assumption; lia.
Qed.

Lemma min2_fkey :
  is_nan (View.min2 a b) = false /\ fkey (View.min2 a b) = Z.min (fkey a) (fkey b).
Proof.
  unfold View.min2. rewrite Ha, Hb, !ltb_fkey by assumption.
  destruct (Z.ltb_spec (fkey a) (fkey b)); [split; [assumption|lia]|].
  destruct (Z.ltb_spec (fkey b) (fkey a)); [split; [assumption|lia]|].
  destruct (get_sign a); split; try assumption; lia.
Qed.

End MaxMin.

(* ================================================================== *)
(** * 12. The engine as a whole                                        *)
(* ================================================================== *)

(** ** 12.1 Every stage completes *)

Lemma output_product B inputText :
  exists a,
    attentionWeights B inputText = Ok a
    /\ shape (seqLen inputText) (seqLen inputText) a
    /\ output B inputText = Ok (product a (product (embeddings B inputText) WV))
    /\ shape (seqLen inputText) 2 (product a (product (embeddings B inputText) WV)).
Proof.
  destruct (engine_attention B inputText) as (ss & _ & Ea & Sa).
  exists (map (softmax (ieee B)) ss). split; [exact Ea|]. split; [exact Sa|].
  unfold output. rewrite Ea, V_product. cbn [bind].
  pose proof (shape_projection B inputText WV ltac:(discriminate)) as Sv.
  cbn [WV nth List.length] in Sv.
  set (a := map (softmax (ieee B)) ss) in *.
  set (v := product (embeddings B inputText) WV) in *.
  pose proof Sa as [La _]. pose proof Sv as [Lv _].
  destruct (Nat.eq_dec (seqLen inputText) 0) as [Hn|Hn].
  - rewrite Hn in *. apply length_zero_iff_nil in La. rewrite La.
    split; [reflexivity|]. apply shape_nil.
  - replace ((0 <? List.length a)%nat) with true by (symmetry; apply Nat.ltb_lt; lia).
    split; [apply matMul_of_matrix|].
    rewrite <- La at 1.
    replace 2 with (List.length (nth 0 v [])) by (apply (shape_row _ _ _ _ Sv); lia).
    apply shape_product; lia.
Qed.

(** X1.  On every input text, whatever the host's [Math] functions return,
    every stage of the engine completes without an exception, and with [n]
    tokens the embeddings are [n] rows of 4 numbers, [Q], [K], [V] and the
    output [n] rows of 2, and the scores, the scaled scores and the
    attention weights [n] rows of [n]. *)
Theorem pipeline_total (B : builtins) (inputText : jsstring) :
  let n := seqLen inputText in
  exists q k v s ss a o,
    Q B inputText = Ok q /\ K B inputText = Ok k /\ V B inputText = Ok v
    /\ scores B inputText = Ok s /\ scaledScores B inputText = Ok ss
    /\ attentionWeights B inputText = Ok a /\ output B inputText = Ok o
    /\ shape n 4 (embeddings B inputText)
    /\ shape n 2 q /\ shape n 2 k /\ shape n 2 v
    /\ shape n n s /\ shape n n ss /\ shape n n a
    /\ shape n 2 o.
Proof.
  intros n.
  destruct (engine_scaledScores B inputText) as (s & Es & Ess & Sss).
  destruct (engine_scores B inputText) as (s' & Es' & Ss & _).
  assert (s' = s) by congruence. subst s'.
  destruct (output_product B inputText) as (a & Ea & Sa & Eo & So).
  do 7 eexists.
  split; [apply Q_product|]. split; [apply K_product|]. split; [apply V_product|].
  split; [exact Es|]. split; [exact Ess|]. split; [exact Ea|]. split; [exact Eo|].
  split; [apply shape_embeddings|].
  split; [apply (shape_projection B inputText WQ); discriminate|].
  split; [apply (shape_projection B inputText WK); discriminate|].
  split; [apply (shape_projection B inputText WV); discriminate|].
  auto.
Qed.

(** ** 12.2 The cells of the projections and of the output *)

Lemma dot_dot4 A B i j : List.length B = 4 -> dot A B i j = dot4 A B i j.
Proof. intros H. unfold dot, dot4. rewrite H. reflexivity. Qed.

(** X2.  Each cell of [Q], [K] and [V] is the embedding row of its token
    times the column of the weight matrix, the four products added from
    [0] in the order of the components, and the sum rounded to two
    decimals. *)
Theorem projection_cells (B : builtins) (inputText : jsstring) :
  let e := embeddings B inputText in
  exists q k v,
    Q B inputText = Ok q /\ K B inputText = Ok k /\ V B inputText = Ok v
    /\ forall i j, i < seqLen inputText -> j < 2 ->
       get2 q i j = round2 (dot4 e WQ i j)
       /\ get2 k i j = round2 (dot4 e WK i j)
       /\ get2 v i j = round2 (dot4 e WV i j).
Proof.
  intros e. do 3 eexists.
  split; [apply Q_product|]. split; [apply K_product|]. split; [apply V_product|].
  intros i j Hi Hj.
  pose proof (shape_embeddings B (tokens inputText)) as [Le _].
  fold (embeddings B inputText) in Le. fold e in Le. fold (seqLen inputText) in Le.
  fold e. rewrite !get2_product by (cbn; lia || discriminate).
  now rewrite !dot_dot4 by reflexivity.
Qed.

(** X3.  Each cell of the output is the attention row of its token times
    the column of [V]: the products [a[i][k] * v[k][j]] added from [0] over
    the tokens [k] in order, and the sum rounded to two decimals. *)
Theorem output_cells (B : builtins) (inputText : jsstring) :
  exists a v o,
    attentionWeights B inputText = Ok a /\ V B inputText = Ok v
    /\ output B inputText = Ok o
    /\ forall i j, i < seqLen inputText -> j < 2 ->
       get2 o i j =
       round2 (fold_left (fun acc k => acc + get2 a i k * get2 v k j)%float
                         (seq 0 (seqLen inputText)) 0%float).
Proof.
  destruct (output_product B inputText) as (a & Ea & Sa & Eo & So).
  exists a. do 2 eexists.
  split; [exact Ea|]. split; [apply V_product|]. split; [exact Eo|].
  intros i j Hi Hj.
  pose proof (shape_projection B inputText WV ltac:(discriminate)) as Sv.
  cbn [WV nth List.length] in Sv.
  destruct Sa as [La _]. pose proof Sv as [Lv _].
  rewrite get2_product.
  - unfold dot. now rewrite Lv.
  - lia.
  - lia.
  - rewrite (shape_row _ _ _ _ Sv); lia.
Qed.

(** ** 12.3 What the engine reads of a token *)

Lemma base_same_features B i t u : same_features t u -> base B i t = base B i u.
Proof.
  intros [Hl Hc]. unfold base. rewrite Hl.
  destruct t as [|c t], u as [|d u]; try discriminate; [reflexivity|].
  cbn [charCodeAt0_mod10 hd] in *. now rewrite Hc.
Qed.

Lemma mapi_from_same_features B i ts us :
  Forall2 same_features ts us ->
  mapi_from (fun i token => map round2 (base B i token)) i ts
  = mapi_from (fun i token => map round2 (base B i token)) i us.
Proof.
  intros H. revert i. induction H as [|t u ts us Htu _ IH]; intros i; [reflexivity|].
  cbn [mapi_from]. now rewrite (base_same_features B i t u Htu), IH.
Qed.

(** X4.  The engine reads of each token its position, its length and the
    remainder modulo 10 of its first code unit, and nothing else: two texts
    whose tokens agree on these, one by one, have the same embeddings and
    the same matrices at every stage. *)
Theorem engine_reads_length_and_first_unit (B : builtins) (text1 text2 : jsstring) :
  Forall2 same_features (tokens text1) (tokens text2) ->
  embeddings B text1 = embeddings B text2
  /\ Q B text1 = Q B text2 /\ K B text1 = K B text2 /\ V B text1 = V B text2
  /\ scores B text1 = scores B text2
  /\ scaledScores B text1 = scaledScores B text2
  /\ attentionWeights B text1 = attentionWeights B text2
  /\ output B text1 = output B text2.
Proof.
  intros H.
  assert (He : embeddings B text1 = embeddings B text2).
  { unfold embeddings, embeddings_of, mapi.
    rewrite (Forall2_length H). now rewrite (mapi_from_same_features B 0 _ _ H). }
  assert (HQ : Q B text1 = Q B text2) by (unfold Q; now rewrite He).
  assert (HK : K B text1 = K B text2) by (unfold K; now rewrite He).
  assert (HV : V B text1 = V B text2) by (unfold V; now rewrite He).
  assert (Hs : scores B text1 = scores B text2) by (unfold scores; now rewrite HQ, HK).
  assert (Hss : scaledScores B text1 = scaledScores B text2)
    by (unfold scaledScores; now rewrite Hs).
  assert (Ha : attentionWeights B text1 = attentionWeights B text2)
    by (unfold attentionWeights; now rewrite Hss).
  assert (Ho : output B text1 = output B text2) by (unfold output; now rewrite Ha, HV).
  repeat split; assumption.
Qed.

Lemma engine_reads_length_and_first_unit_witness :
  attentionWeights Reference.host (str "The cat sat")
  = attentionWeights Reference.host (str "The mat sit").
Proof.
  apply (engine_reads_length_and_first_unit Reference.host
           (str "The cat sat") (str "The mat sit")).
  repeat constructor.
Defined.

Lemma tokens_nonempty inputText :
  Forall (fun t => (0 <? List.length t)%nat = true) (tokens inputText).
Proof.
  unfold tokens. apply Forall_forall. intros t H. now apply filter_In in H.
Qed.

(** X5.  The fourth component of an embedding takes ten values only:
    [0], [0.1], ..., [0.9]. *)
Theorem embedding_fourth_component (B : builtins) (inputText : jsstring)
  (i : nat) (row : list float) :
  nth_error (embeddings B inputText) i = Some row ->
  In (nth 3 row nan) tenths.
Proof.
  unfold embeddings, embeddings_of. intros H.
  destruct (0 <? List.length (tokens inputText))%nat; [|now destruct i].
  unfold mapi in H. rewrite nth_error_mapi_from in H.
  destruct (nth_error (tokens inputText) i) as [t|] eqn:Et; [|discriminate].
  injection H as <-. cbn [base map nth].
  pose proof (tokens_nonempty inputText) as Hne. rewrite Forall_forall in Hne.
  specialize (Hne t (nth_error_In _ _ Et)).
  destruct t as [|c t]; [discriminate|]. cbn [charCodeAt0_mod10].
  assert (Hc : (c mod 10 < 10)%N) by (apply N.mod_upper_bound; discriminate).
  remember (N.to_nat (c mod 10)) as k eqn:Hk.
  replace (c mod 10)%N with (N.of_nat k) by lia.
  assert (Hk10 : k < 10) by lia. clear Hk Hc Hne Et.
  do 10 (destruct k as [|k];
         [vm_compute; repeat (try (left; reflexivity); right); contradiction|]).
  lia.
Qed.

Lemma embedding_fourth_component_witness :
  In (nth 3 [0.2; 1; 0.3; 0.4]%float nan) tenths.
Proof.
  apply (embedding_fourth_component Reference.host the_cat 0 [0.2; 1; 0.3; 0.4]%float).
  vm_compute. reflexivity.
Defined.

(* ================================================================== *)
(** * 13. More of [softmax]                                            *)
(* ================================================================== *)

(** ** 13.1 Rows of one value *)

(** The exponentials of a row of equal entries: [1] each when the entry is
    finite, [NaN] each when it is not ([x - x] is [NaN] for an infinity). *)
Lemma exp_centred_repeat B x n :
  ecma262 B ->
  map (Math_exp B) (centred (repeat x (S n)))
  = repeat (if is_finite x then 1 else nan)%float (S n).
Proof.
  intros E. unfold centred. rewrite Math_max_repeat, !map_repeat.
  destruct (is_finite x) eqn:F.
  - now rewrite (sub_diag_finite x F), (exp_zero B E).
  - now rewrite (sub_diag_not_finite x F), (exp_nan B E).
Qed.

(** X6.  On a host that follows ECMA-262, [softmax] of a row of one entry
    is [[1]] when the entry is finite and [[NaN]] when it is an infinity or
    [NaN]. *)
Theorem softmax_single (B : builtins) (x : float) :
  ecma262 B ->
  softmax (ieee B) [x] = [if is_finite x then 1 else nan]%float.
Proof.
  intros E. rewrite softmax_ieee_centred. cbn [List.length Nat.eqb].
  rewrite (exp_centred_repeat B x 0 E : map (Math_exp B) (centred [x]) = _).
  destruct (is_finite x); vm_compute; reflexivity.
Qed.

Lemma softmax_single_witness :
  softmax (ieee Reference.host) [0.97]%float = [1]%float.
Proof. apply (softmax_single Reference.host 0.97). apply ecma262_reference. Defined.

(** X7.  Equal finite scores get equal weights: [softmax] of [n] copies of
    a finite value is [n] copies of [Math.round(1 / s * 1000) / 1000], where
    [s] is the sum of [n] ones; two equal scores get [0.5] each. *)
Theorem softmax_uniform (B : builtins) (x : float) (n : nat) :
  ecma262 B -> is_finite x = true ->
  softmax (ieee B) (repeat x (S n))
  = repeat (Math_round (1 / row_sum (repeat 1 (S n)) * 1000) / 1000)%float (S n).
Proof.
  intros E F. rewrite softmax_ieee_centred.
  rewrite repeat_length. cbn [Nat.eqb].
  rewrite (exp_centred_repeat B x n E), F.
  cbv zeta. now rewrite map_repeat.
Qed.

Lemma softmax_uniform_witness :
  softmax (ieee Reference.host) [0.45; 0.45]%float = [0.5; 0.5]%float.
Proof.
  apply (softmax_uniform Reference.host 0.45 1); [apply ecma262_reference|reflexivity].
Defined.

(** X8.  One [NaN] in a row of scores makes every weight of the row
    [NaN]. *)
Theorem softmax_nan_row (B : builtins) (arr : list float) :
  ecma262 B -> In nan arr ->
  softmax (ieee B) arr = repeat nan (List.length arr).
Proof.
  intros E H. rewrite softmax_ieee_centred.
  assert (Hc : map (Math_exp B) (centred arr) = repeat nan (List.length arr)).
  { unfold centred. rewrite (Math_max_nan _ H), map_map, <- map_const.
    apply map_ext. intros y. now rewrite nan_sub_r, (exp_nan B E). }
  rewrite Hc. destruct arr as [|x arr]; [contradiction|].
  cbn [List.length Nat.eqb]. cbv zeta. rewrite map_repeat.
  cbn [repeat fold_left]. change (0 + nan)%float with nan. rewrite fold_add_nan.
  reflexivity.
Qed.

Lemma softmax_nan_row_witness :
  softmax (ieee Reference.host) [1; nan; 2]%float = [nan; nan; nan]%float.
Proof.
  apply (softmax_nan_row Reference.host [1; nan; 2]%float);
    [apply ecma262_reference|right; left; reflexivity].
Defined.

(** X9.  A text of one token has the one scaled score [s] and the attention
    matrix [[[1]]] when [s] is finite ([[[NaN]]] otherwise): the token
    attends to itself. *)
Theorem attention_single (B : builtins) (inputText : jsstring) :
  ecma262 B -> seqLen inputText = 1 ->
  exists s,
    scaledScores B inputText = Ok [[s]]
    /\ attentionWeights B inputText = Ok [[if is_finite s then 1 else nan]]%float.
Proof.
  intros E H1.
  destruct (engine_attention B inputText) as (ss & Ess & Ea & [La Fa]).
  rewrite H1, length_map in La.
  destruct ss as [|row [|? ?]]; try discriminate La.
  inversion Fa as [|? ? Hrow _]; subst. rewrite length_softmax, H1 in Hrow.
  destruct row as [|s [|? ?]]; try discriminate Hrow.
  exists s. split; [exact Ess|]. rewrite Ea. cbn [map].
  rewrite softmax_ieee_centred. cbn [List.length Nat.eqb].
  rewrite (exp_centred_repeat B s 0 E : map (Math_exp B) (centred [s]) = _).
  destruct (is_finite s); vm_compute; reflexivity.
Qed.

Lemma attention_single_witness :
  exists s,
    scaledScores Reference.host (str "Hello") = Ok [[s]]
    /\ attentionWeights Reference.host (str "Hello")
       = Ok [[if is_finite s then 1 else nan]]%float.
Proof.
  apply (attention_single Reference.host (str "Hello"));
    [apply ecma262_reference|reflexivity].
Defined.

(** ** 13.2 The order of the weights, in exact arithmetic *)

Section ExactOrder.

Import Exact.
Local Open Scope R_scope.

Lemma Int_part_le a b : a <= b -> (Int_part a <= Int_part b)%Z.
Proof.
  intros H. destruct (base_Int_part a) as [A1 A2]. destruct (base_Int_part b) as [B1 B2].
  destruct (Z_le_gt_dec (Int_part a) (Int_part b)) as [|G]; [assumption|exfalso].
  assert (G' : (Int_part b + 1 <= Int_part a)%Z) by lia.
  apply IZR_le in G'. rewrite plus_IZR in G'. lra.
Qed.

Lemma round_le a b : a <= b -> round a <= round b.
Proof. intros H. unfold round. apply IZR_le, Int_part_le. lra. Qed.

(** What [softmax] makes of one entry, given the maximum and the sum. *)
Lemma softmax_exact_nth arr i :
  (i < List.length arr)%nat ->
  nth i (softmax arithmetic arr) 0
  = round (Rtrigo_def.exp (nth i arr 0 - max_of arr)
           / sum (map (fun x => Rtrigo_def.exp (x - max_of arr)) arr) * 1000) / 1000.
Proof.
  intros Hi. unfold softmax.
  replace (List.length arr =? 0)%nat with false by (symmetry; apply Nat.eqb_neq; lia).
  cbn [a_max a_exp a_sub a_add a_lit a_div a_round a_mul arithmetic].
  rewrite fold_left_plus, Rplus_0_l, map_map.
  set (h := fun x => round (Rtrigo_def.exp (x - max_of arr) / _ * 1000) / 1000).
  rewrite (nth_indep _ 0 (h 0)) by (rewrite length_map; exact Hi).
  now rewrite map_nth.
Qed.

End ExactOrder.



(* ================================================================== *)
(** * 14. More of the tokenizer                                        *)
(* ================================================================== *)

(** ** 14.1 Trimming *)

Lemma trim_first s c r : trim s = c :: r -> is_whitespace c = false.
Proof.
  intros H. unfold trim in H.
  destruct (trimEnd_spec (trimStart s)) as (post & E & _ & _).
  destruct (trimStart_spec s) as (_ & _ & _ & Hh).
  rewrite H in E. apply (Hh c (r ++ post)). exact E.
Qed.

Lemma trim_last s r c : trim s = r ++ [c] -> is_whitespace c = false.
Proof.
  intros H. unfold trim in H.
  destruct (trimEnd_spec (trimStart s)) as (_ & _ & _ & Hh). now apply (Hh r c).
Qed.

(** A string that neither starts nor ends with whitespace is its own
    trimming. *)
Lemma trim_fixed s :
  (forall c r, s = c :: r -> is_whitespace c = false) ->
  (forall r c, s = r ++ [c] -> is_whitespace c = false) ->
  trim s = s.
Proof.
  intros Hf Hl. unfold trim.
  assert (E : trimStart s = s).
  { destruct s as [|c r]; [reflexivity|]. cbn. now rewrite (Hf c r). }
  rewrite E. unfold trimEnd.
  assert (E' : trimStart (rev s) = rev s).
  { destruct (rev s) as [|c r] eqn:R; [reflexivity|]. cbn.
    rewrite (Hl (rev r) c); [reflexivity|].
    rewrite <- (rev_involutive s), R. reflexivity. }
  rewrite E'. apply rev_involutive.
Qed.

Lemma trimStart_app_whitespace pre s :
  forallb is_whitespace pre = true -> trimStart (pre ++ s) = trimStart s.
Proof.
  induction pre as [|c pre IH]; [reflexivity|]. cbn [forallb app trimStart].
  intros H. apply andb_prop in H. destruct H as [-> H]. now apply IH.
Qed.

Lemma forallb_rev {A} (p : A -> bool) l : forallb p (rev l) = forallb p l.
Proof.
  induction l as [|x l IH]; [reflexivity|].
  cbn [rev forallb]. rewrite forallb_app, IH. cbn. now rewrite andb_true_r, andb_comm.
Qed.

Lemma trimEnd_app_whitespace s post :
  forallb is_whitespace post = true -> trimEnd (s ++ post) = trimEnd s.
Proof.
  intros H. unfold trimEnd. rewrite rev_app_distr, trimStart_app_whitespace; [reflexivity|].
  now rewrite forallb_rev.
Qed.

Lemma trimStart_app s post :
  trimStart (s ++ post)
  = if forallb is_whitespace s then trimStart post else trimStart s ++ post.
Proof.
  induction s as [|c s IH]; [reflexivity|]. cbn [app trimStart forallb].
  destruct (is_whitespace c); [exact IH|reflexivity].
Qed.

Lemma trim_app_whitespace pre s post :
  forallb is_whitespace pre = true -> forallb is_whitespace post = true ->
  trim (pre ++ s ++ post) = trim s.
Proof.
  intros Hpre Hpost. unfold trim.
  rewrite (trimStart_app_whitespace pre _ Hpre), trimStart_app.
  destruct (forallb is_whitespace s) eqn:Hs.
  - now rewrite (trimStart_all_whitespace _ Hpost), (trimStart_all_whitespace _ Hs).
  - now apply trimEnd_app_whitespace.
Qed.

(** X11.  Whitespace of any kind around the text changes no token. *)
Theorem tokens_ignore_outer_whitespace (pre inputText post : jsstring) :
  forallb is_whitespace pre = true -> forallb is_whitespace post = true ->
  tokens (pre ++ inputText ++ post) = tokens inputText.
Proof.
  intros Hpre Hpost. unfold tokens. now rewrite trim_app_whitespace.
Qed.

Lemma tokens_ignore_outer_whitespace_witness :
  tokens ([9; 32]%N ++ str "The cat" ++ [10]%N) = tokens (str "The cat").
Proof.
  apply (tokens_ignore_outer_whitespace [9; 32]%N (str "The cat") [10]%N); reflexivity.
Defined.

(** ** 14.2 Joining the tokens again *)

Lemma split_snoc sep s c :
  (c =? sep)%N = false ->
  split sep (s ++ [c])
  = removelast (split sep s) ++ [last (split sep s) [] ++ [c]].
Proof.
  intros Hc. induction s as [|d s IH].
  - cbn. now rewrite Hc.
  - cbn [app split]. rewrite IH.
    pose proof (split_nonempty sep s) as Hne.
    destruct (split sep s) as [|g gs]; [congruence|].
    destruct (d =? sep)%N.
    + reflexivity.
    + destruct gs as [|h hs]; reflexivity.
Qed.

Lemma join_first sep c f fs : exists r, join sep ((c :: f) :: fs) = c :: r.
Proof. rewrite join_head_tail. cbn. eauto. Qed.

Lemma join_snoc sep fs f c : exists r, join sep (fs ++ [f ++ [c]]) = r ++ [c].
Proof.
  induction fs as [|g fs (r & IH)]; cbn [app].
  - exists f. reflexivity.
  - rewrite join_head_tail. unfold join_tail.
    destruct (fs ++ [f ++ [c]]) eqn:E; [now destruct fs|].
    rewrite IH. exists (g ++ sep :: r). now rewrite <- app_assoc.
Qed.

(** The first token starts, and the last token ends, with a code unit that
    is not whitespace. *)
Lemma tokens_ends s :
  tokens s = []
  \/ ((exists c f fs, tokens s = (c :: f) :: fs /\ is_whitespace c = false)
      /\ (exists fs f c, tokens s = fs ++ [f ++ [c]] /\ is_whitespace c = false)).
Proof.
  unfold tokens. destruct (trim s) as [|c r] eqn:T; [now left|]. right. split.
  - pose proof (trim_first s c r T) as Hc.
    assert (Hs : (c =? space)%N = false).
    { destruct (N.eqb_spec c space) as [->|]; [discriminate Hc|reflexivity]. }
    cbn [split]. rewrite Hs.
    destruct (split space r) as [|f fs]; cbn; eauto.
  - destruct (exists_last (l := c :: r) ltac:(discriminate)) as (r' & c' & E).
    rewrite E in *. pose proof (trim_last s r' c' T) as Hc.
    assert (Hs : (c' =? space)%N = false).
    { destruct (N.eqb_spec c' space) as [->|]; [discriminate Hc|reflexivity]. }
    rewrite (split_snoc space r' c' Hs), filter_app. cbn [filter].
    rewrite length_app. cbn [List.length].
    replace (0 <? _ + 1)%nat with true by (symmetry; apply Nat.ltb_lt; lia).
    eauto.
Qed.

Lemma filter_idem {A} (p : A -> bool) l : filter p (filter p l) = filter p l.
Proof.
  induction l as [|x l IH]; [reflexivity|]. cbn [filter].
  destruct (p x) eqn:E; [|exact IH]. cbn [filter]. now rewrite E, IH.
Qed.

(** X12.  The tokens joined by single spaces tokenize to themselves: the
    tokenizer is idempotent on its normalised text. *)
Theorem tokens_join_round_trip (inputText : jsstring) :
  tokens (join space (tokens inputText)) = tokens inputText.
Proof.
  destruct (tokens_ends inputText) as [E|[(c & f & fs & E1 & Hc) (gs & g & d & E2 & Hd)]].
  - rewrite E. reflexivity.
  - set (ts := tokens inputText) in *.
    assert (Htrim : trim (join space ts) = join space ts).
    { apply trim_fixed.
      - intros c' r H. destruct (join_first space c f fs) as (r' & J).
        rewrite E1 in H. rewrite J in H. now injection H as <- _.
      - intros r c' H. destruct (join_snoc space gs g d) as (r' & J).
        rewrite E2 in H. rewrite J in H. apply app_inj_tail in H. now destruct H as [_ <-]. }
    unfold tokens at 1. rewrite Htrim.
    assert (Hsplit : split space (join space ts) = ts).
    { apply (join_unique space).
      - apply split_nonempty.
      - rewrite E1. discriminate.
      - apply split_no_sep.
      - subst ts. unfold tokens. apply Forall_forall. intros t Ht.
        apply filter_In in Ht. destruct Ht as [Ht _].
        pose proof (split_no_sep space (trim inputText)) as H.
        rewrite Forall_forall in H. now apply H.
      - apply join_split. }
    rewrite Hsplit. subst ts. unfold tokens. apply filter_idem.
Qed.

(* ================================================================== *)
(** * 15. The view                                                     *)
(* ================================================================== *)

Section TheView.

Import View.

(** ** 15.1 The story of the displayed token *)

Lemma story_placeholder_iff B word allTokens attentionRow wordIndex :
  generateAttentionStory B word allTokens attentionRow wordIndex = placeholder word
  <-> List.length (valid_indices allTokens attentionRow) < 2.
Proof.
  pose proof (length_sortedAttention allTokens attentionRow) as L.
  pose proof (valid_indices_bound allTokens attentionRow) as [Hb He].
  unfold generateAttentionStory.
  destruct (List.length attentionRow =? 0)%nat eqn:Hrow.
  { apply Nat.eqb_eq in Hrow. cbn [orb]. split; [lia|reflexivity]. }
  destruct (List.length allTokens =? 0)%nat eqn:Htok.
  { apply Nat.eqb_eq, length_zero_iff_nil in Htok. rewrite (He Htok).
    cbn. split; [lia|reflexivity]. }
  cbn [orb]. rewrite L.
  destruct (Nat.ltb_spec (List.length (valid_indices allTokens attentionRow)) 2) as [Hlt|Hge].
  - split; [intros _; assumption|reflexivity].
  - split; [|lia]. intros Hp. exfalso.
    destruct (idx _ =? wordIndex)%nat;
      [now apply story_not_placeholder_1 in Hp|now apply story_not_placeholder_2 in Hp].
Qed.

Lemma nth_seq_self {A} (d : A) l : map (fun i => nth i l d) (seq 0 (List.length l)) = l.
Proof.
  induction l as [|a l IH]; [reflexivity|].
  cbn [List.length seq map nth]. f_equal. rewrite <- seq_shift, map_map. exact IH.
Qed.

(** With no empty token, the valid indices of a full row are the places of
    the known tokens. *)
Lemma valid_indices_known tokenList row :
  Forall (fun t => (0 <? List.length t)%nat = true) tokenList ->
  List.length row = List.length tokenList ->
  map (fun i => nth i tokenList []) (valid_indices tokenList row) = known tokenList.
Proof.
  intros Hne Hlen. unfold valid_indices, known. rewrite Hlen.
  rewrite <- (nth_seq_self [] tokenList) at 3.
  rewrite filter_map_comm. f_equal. apply filter_ext_in.
  intros i Hi. apply in_seq in Hi. unfold valid_index.
  rewrite (nth_error_nth' tokenList []) by lia.
  rewrite Forall_forall in Hne. rewrite Hne by (apply nth_In; lia). reflexivity.
Qed.

(** X13.  The story [AttentionGraph] shows for a displayed token, on the
    tokens and the attention weights of a text, is the placeholder sentence
    exactly when the displayed index is beyond the tokens (a selection made
    on a longer text) or fewer than two tokens differ from the word
    ['unknown']; a token that reads ['unknown'] is never counted. *)
Theorem story_of_input (B : builtins) (inputText : jsstring) (displayToken : nat) :
  exists weights,
    attentionWeights B inputText = Ok weights
    /\ (AttentionGraph_story B weights (tokens inputText) displayToken
        = placeholder (word_at (tokens inputText) displayToken)
        <-> seqLen inputText <= displayToken
            \/ List.length (known (tokens inputText)) < 2).
Proof.
  destruct (engine_attention B inputText) as (ss & _ & Ea & Sa).
  exists (map (softmax (ieee B)) ss). split; [exact Ea|].
  set (weights := map (softmax (ieee B)) ss) in *.
  unfold AttentionGraph_story. rewrite story_placeholder_iff.
  destruct (Nat.le_gt_cases (seqLen inputText) displayToken) as [Hd|Hd].
  - destruct Sa as [La _].
    rewrite (nth_overflow weights) by lia. cbn. split; [auto|lia].
  - assert (Hrow : List.length (nth displayToken weights []) = List.length (tokens inputText))
      by (apply (shape_row _ _ _ _ Sa); exact Hd).
    rewrite <- (valid_indices_known _ _ (tokens_nonempty inputText) Hrow), length_map.
    split; [auto|]. intros [H|H]; [lia|exact H].
Qed.

(** Two tokens, one of them the word ['unknown']: the placeholder. *)
Example story_of_unknown :
  match attentionWeights Reference.host (str "the unknown") with
  | Ok weights =>
      AttentionGraph_story Reference.host weights (tokens (str "the unknown")) 0
      = placeholder (str "the")
  | Throw _ => False
  end.
Proof. vm_compute. reflexivity. Qed.

(** ** 15.2 The guided tour *)

Lemma reachable_bounds st :
  reachable st -> currentStep st < List.length steps /\ animationPhase st < 4.
Proof.
  intros H. induction H as [|st e H [IH1 IH2] En].
  - cbn. lia.
  - destruct e; cbn [handle currentStep animationPhase]; try (split; assumption).
    + split; [assumption|]. unfold next_phase. apply Nat.mod_upper_bound. lia.
    + split; [|assumption]. unfold next_step.
      destruct (Nat.ltb_spec (currentStep st) (List.length steps - 1)); cbn in *; lia.
    + split; [|assumption]. cbn [enabled] in En.
      apply andb_prop in En. destruct En as [_ En]. now apply Nat.ltb_lt in En.
Qed.

(** X14.  In every state the page can reach from its initial state, by the
    timers and by the handlers of what it renders, the current step is one
    of the five steps ([steps[currentStep]] is defined) and the animation
    phase is below 4. *)
Theorem tour_stays_on_a_step (st : ui) :
  reachable st ->
  (exists c, nth_error steps (currentStep st) = Some c) /\ animationPhase st < 4.
Proof.
  intros H. destruct (reachable_bounds st H) as [I1 I2]. split; [|exact I2].
  destruct (nth_error steps (currentStep st)) as [c|] eqn:E; [eauto|].
  apply nth_error_None in E. lia.
Qed.

Lemma tour_stays_on_a_step_witness :
  (exists c, nth_error steps
     (currentStep (handle StepTick (handle (ClickStep 4) (handle TogglePlay initial))))
     = Some c)
  /\ animationPhase (handle StepTick (handle (ClickStep 4) (handle TogglePlay initial))) < 4.
Proof.
  apply (tour_stays_on_a_step
           (handle StepTick (handle (ClickStep 4) (handle TogglePlay initial)))).
  repeat (apply reach_handle; [|reflexivity]). apply reach_initial.
Defined.

(** X15.  The tour wraps around: from a reachable state, five ticks of the
    step timer, or four ticks of the animation timer, lead back to the same
    state. *)
Theorem tour_wraps_around (st : ui) :
  reachable st ->
  fold_right handle st (repeat StepTick (List.length steps)) = st
  /\ fold_right handle st (repeat PhaseTick 4) = st.
Proof.
  intros H. destruct (reachable_bounds st H) as [Hs Hp].
  destruct st as [t cs pl hv sel sm ph]. cbn in Hs, Hp. clear H.
  split.
  - do 5 (destruct cs as [|cs]; [reflexivity|]). lia.
  - do 4 (destruct ph as [|ph]; [reflexivity|]). lia.
Qed.

Lemma tour_wraps_around_witness :
  fold_right handle (handle (ClickStep 3) (handle TogglePlay initial))
    (repeat StepTick (List.length steps))
  = handle (ClickStep 3) (handle TogglePlay initial)
  /\ fold_right handle (handle (ClickStep 3) (handle TogglePlay initial))
       (repeat PhaseTick 4)
     = handle (ClickStep 3) (handle TogglePlay initial).
Proof.
  apply (tour_wraps_around (handle (ClickStep 3) (handle TogglePlay initial))).
  repeat (apply reach_handle; [|reflexivity]). apply reach_initial.
Defined.

(** ** 15.3 The token cards *)

Lemma attention_of_not_nan weights displayToken i :
  is_nan (attention_of weights displayToken i) = false.
Proof.
  unfold attention_of.
  destruct displayToken as [d|]; [|reflexivity].
  destruct (nth_error weights d) as [row|]; [|reflexivity].
  destruct (nth_error row i) as [w|]; [|reflexivity].
  apply weight_or_zero_not_nan.
Qed.

(** X16.  Whatever the weights hold ([NaN], infinities, missing rows or
    entries) and whichever token is displayed, the opacity of a token card
    is a Number between [0.4] and [1]. *)
Theorem opacity_bounds (weights : matrix) (displayToken : option nat) (i : nat) :
  (0.4 <=? baseOpacity weights displayToken i)%float = true
  /\ (baseOpacity weights displayToken i <=? 1)%float = true.
Proof.
  unfold baseOpacity. destruct displayToken as [d|]; [|split; reflexivity].
  set (v := (attention_of weights (Some d) i + 0.3)%float).
  assert (Hv : is_nan v = false)
    by (apply add_not_nan; [apply attention_of_not_nan|reflexivity]).
  unfold Math_max, Math_min. cbn [fold_left].
  rewrite max2_neg_infinity.
  assert (Hinf : min2 infinity 1 = 1%float) by reflexivity.
  rewrite Hinf.
  destruct (min2_fkey 1 v eq_refl Hv) as [Hm Km].
  destruct (max2_fkey 0.4 (min2 1 v) eq_refl Hm) as [Ho Ko].
  rewrite !leb_fkey by (assumption || reflexivity).
  rewrite Ko, Km.
  assert (H01 : (fkey 0.4 <? fkey 1)%Z = true) by (vm_compute; reflexivity).
  apply Z.ltb_lt in H01.
  generalize dependent (fkey 0.4). generalize dependent (fkey 1).
  generalize dependent (fkey v). intros. split; apply Z.leb_le; lia.
Qed.

(** ** 15.4 The arrows *)

Lemma length_tokenPositions tokenList :
  List.length (tokenPositions tokenList) = List.length tokenList.
Proof. unfold tokenPositions, mapi. apply length_mapi_from. Qed.

Lemma draw_ok B positions selected phase w j :
  selected < List.length positions -> j < List.length positions ->
  exists a, draw B positions selected phase w j = Ok a /\ target a = j.
Proof.
  intros Hs Hj. unfold draw.
  destruct (nth_error positions selected) as [start|] eqn:E1;
    [|apply nth_error_None in E1; lia].
  destruct (nth_error positions j) as [end_|] eqn:E2;
    [|apply nth_error_None in E2; lia].
  eexists. split; reflexivity.
Qed.

Lemma forEach_weight_targets B positions selected phase row :
  forall j,
  selected < List.length positions ->
  exists arrows,
    forEach_weight B positions selected phase j row = Ok arrows
    /\ map target arrows
       = filter (fun k => drawn positions selected (nth (k - j) row nan) k)
                (seq j (List.length row)).
Proof.
  induction row as [|w row IH]; intros j Hs; cbn [forEach_weight List.length seq filter].
  - exists []. split; reflexivity.
  - destruct (IH (S j) Hs) as (arrows & E & Ht).
    assert (Hf : filter (fun k => drawn positions selected (nth (k - j) (w :: row) nan) k)
                        (seq (S j) (List.length row))
                 = filter (fun k => drawn positions selected (nth (k - S j) row nan) k)
                        (seq (S j) (List.length row))).
    { apply filter_ext_in. intros k Hk. apply in_seq in Hk.
      replace (k - j) with (S (k - S j)) by lia. reflexivity. }
    rewrite Hf, E, Nat.sub_diag. cbn [nth].
    destruct (drawn positions selected w j) eqn:D.
    + unfold drawn in D. apply andb_prop in D. destruct D as [_ D].
      apply Nat.ltb_lt in D.
      destruct (draw_ok B positions selected phase w j Hs D) as (a & Ea & Ta).
      rewrite Ea. cbn [bind]. eexists. split; [reflexivity|].
      cbn [map]. now rewrite Ta, Ht.
    + exists arrows. split; [reflexivity|exact Ht].
Qed.

(** X17.  When there are no more rows of weights than tokens, as for the
    weights and the tokens of one text, the effect of [AttentionFlow]
    completes without an exception; with a token selected it draws one
    arrow to each token other than the selected one whose weight in the
    selected row is above [0.05], in the order of the tokens, and none
    without a selection or for a selection beyond the rows. *)
Theorem AttentionFlow_total (B : builtins) (weights : matrix) (tokenList : list jsstring)
  (selectedToken : option nat) (animationPhase : nat) :
  List.length weights <= List.length tokenList ->
  exists arrows,
    AttentionFlow B weights tokenList selectedToken animationPhase = Ok arrows
    /\ map target arrows
       = match selectedToken with
         | Some selected => targets (nth selected weights []) tokenList selected
         | None => []
         end.
Proof.
  intros H. unfold AttentionFlow.
  destruct selectedToken as [selected|]; [|exists []; split; reflexivity].
  destruct (nth_error weights selected) as [row|] eqn:E.
  - assert (Hs : selected < List.length weights) by (apply nth_error_Some; congruence).
    replace (List.length weights =? 0)%nat with false
      by (symmetry; apply Nat.eqb_neq; lia).
    destruct (forEach_weight_targets B (tokenPositions tokenList) selected animationPhase
                row 0) as (arrows & Ea & Ht).
    { rewrite length_tokenPositions. lia. }
    exists arrows. split; [exact Ea|]. rewrite Ht.
    rewrite (nth_error_nth _ _ [] E). unfold targets.
    apply filter_ext. intros k. unfold drawn.
    now rewrite Nat.sub_0_r, length_tokenPositions.
  - apply nth_error_None in E. rewrite (nth_overflow weights) by exact E.
    exists []. split; [|reflexivity].
    now destruct (List.length weights =? 0)%nat.
Qed.

Lemma AttentionFlow_total_witness :
  exists arrows,
    AttentionFlow Reference.host [[0.6; 0.4]; [0.03; 0.97]]%float
      [str "big"; str "cat"] (Some 0) 1 = Ok arrows
    /\ map target arrows = targets [0.6; 0.4]%float [str "big"; str "cat"] 0.
Proof.
  apply (AttentionFlow_total Reference.host [[0.6; 0.4]; [0.03; 0.97]]%float
           [str "big"; str "cat"] (Some 0) 1).
  cbn. lia.
Defined.

(** With more rows of weights than tokens the effect can throw: the
    selected token has no position. *)
Example AttentionFlow_throws :
  AttentionFlow Reference.host [[1; 0]; [0.5; 0.5]]%float [str "cat"] (Some 1) 0
  = Throw TypeError.
Proof. vm_compute. reflexivity. Qed.

End TheView.
